(** * Realtime voice session pipeline of the Gemini conversation hub

    A shallow embedding of [src/components/LiveChat.tsx] (audio codec
    helpers, the [cleanup] teardown, the [handleConnect] start-up and the
    transport callbacks [onMessage], [onOpen], [onError], [onClose]),
    of the persona catalogue in [constants.tsx] and of the sibling
    [getSystemInstruction] of [TextChat.tsx].

    Conventions.
    - An audio sample is a rational [Q]: every finite value of a
      [Float32Array] is a dyadic rational, multiplying it by 32768 is exact
      in double precision, and [n / 32768.0] for a 16-bit [n] is exactly
      representable in single precision, so no rounding is lost.
    - A time on the output clock is an IEEE 754 binary64 value, with the
      Standard Library's specification of its arithmetic ([SpecFloat]):
      sums and quotients are rounded as the platform rounds them.
    - Typed-array bytes are integers in [0, 256); the platform is
      little-endian.
    - [btoa]/[atob] (wrapped by [encode]/[decode]) are platform builtins and
      mutually inverse on byte strings: a base64 payload is modelled by the
      byte sequence it carries.
    - Handlers are programs over the component's refs and React state, with
      a log of the platform calls they make, and may complete abruptly.
      A React state setter is an assignment: the last value set during a
      handler is the state after it.
    - An [async] handler runs to its end once its awaited values are given:
      [onMessage] takes the clock reading [outputCtx.currentTime],
      [handleConnect] the outcome of the microphone request.  Other
      callbacks can run while [handleConnect] awaits: module [Lifecycle]
      cuts it at its awaits into stretches that run as separate events. *)

From Stdlib Require Import ZArith QArith Qabs List String Ascii Bool Lia.
From Stdlib Require Import SpecFloat.
Import ListNotations.

(* ================================================================== *)
(** * Part I: the program                                              *)
(* ================================================================== *)

(** Exceptions the handlers can raise. *)
Inductive JsError : Type :=
| TypeError
| RangeError
| NotSupportedError
| NotAllowedError
| InvalidStateError.

(** Completion of a call: normal, or abrupt with an exception
    (a rejected promise for an [async] function). *)
Inductive Completion (A : Type) : Type :=
| Normal (a : A)
| Throw (e : JsError).
Arguments Normal {A} a.
Arguments Throw {A} e.

(** ** Numbers of the platform on the output clock *)

Module Double.

(** An IEEE 754 binary64 value. *)
Definition double : Type := spec_float.

Definition prec : Z := 53.
Definition emax : Z := 1024.

Definition zero : double := S754_zero false.

(** [x + y] and [x / y] on Numbers: rounded to nearest, ties to even. *)
Definition add (x y : double) : double := SFadd prec emax x y.
Definition div (x y : double) : double := SFdiv prec emax x y.

(** [x < y] and [x <= y] on Numbers; false when either is NaN. *)
Definition ltb (x y : double) : bool := SFltb x y.
Definition leb (x y : double) : bool := SFleb x y.

(** The Number of an integer (exact up to 2^53 in magnitude). *)
Definition of_Z (n : Z) : double := binary_normalize prec emax n 0 false.

(** [Math.max(x, y)]: NaN if either is NaN, and +0 is larger than -0. *)
Definition max (x y : double) : double :=
  match x, y with
  | S754_nan, _ | _, S754_nan => S754_nan
  | S754_zero sx, S754_zero sy => S754_zero (sx && sy)
  | _, _ => if ltb x y then y else x
  end.

(** Neither NaN nor negative: a zero, a positive finite value or
    +Infinity.  [AudioContext.currentTime] is such a value. *)
Definition nonneg (x : double) : bool :=
  match x with
  | S754_zero _ => true
  | S754_finite false _ _ => true
  | S754_infinity false => true
  | _ => false
  end.

(** The order of [leb] on values other than NaN, as a lexicographic key:
    class, then exponent, then mantissa. *)
Definition key (x : double) : Z * Z * Z :=
  match x with
  | S754_infinity true => (-2, 0, 0)
  | S754_finite true m e => (-1, - e, - Zpos m)
  | S754_zero _ => (0, 0, 0)
  | S754_nan => (0, 0, 0)
  | S754_finite false m e => (1, e, Zpos m)
  | S754_infinity false => (2, 0, 0)
  end%Z.

Definition key_le (k1 k2 : Z * Z * Z) : Prop :=
  let '(a1, b1, c1) := k1 in
  let '(a2, b2, c2) := k2 in
  (a1 < a2 \/ (a1 = a2 /\ (b1 < b2 \/ (b1 = b2 /\ c1 <= c2))))%Z.

End Double.

(** ** Types of the client library ([@google/genai])

    [Blob] is what [createBlob] returns and what a server part carries as
    [inlineData]; every field is optional in the library's types.  The
    base64 text of [data] is modelled by the byte sequence it carries. *)

Module Genai.

Record Blob : Type := mkBlob {
  data : option (list Z);
  mimeType : option string
}.

Record Part : Type := mkPart {
  inlineData : option Blob
}.

Record Content : Type := mkContent {
  parts : option (list Part)
}.

Record Transcription : Type := mkTranscription {
  text : option string
}.

Record LiveServerContent : Type := mkLiveServerContent {
  outputTranscription : option Transcription;
  inputTranscription : option Transcription;
  turnComplete : option bool;
  modelTurn : option Content
}.

Record LiveServerMessage : Type := mkLiveServerMessage {
  serverContent : option LiveServerContent
}.

(** The bytes a blob carries, none if [data] is absent. *)
Definition payload (b : Blob) : list Z :=
  match data b with
  | Some bytes => bytes
  | None => []
  end.

End Genai.

(** ** Audio helper functions ([components/LiveChat.tsx]) *)

Module Codec.
Local Open Scope Z_scope.

(** Elements of a [Float32Array] and results of Number arithmetic. *)
Inductive number : Type :=
| Fin (q : Q)
| PosInf
| NegInf
| NaN.

(** [data[i] * 32768] *)
Definition times32768 (x : number) : number :=
  match x with
  | Fin q => Fin (q * 32768)%Q
  | other => other
  end.

(** Truncation toward zero, the first step of the typed-array store. *)
Definition truncate (q : Q) : Z := Z.quot (Qnum q) (Zpos (Qden q)).

(** Reduction modulo 2^16 into the signed range. *)
Definition int16_of_Z (n : Z) : Z :=
  let m := n mod 65536 in
  if 32768 <=? m then m - 65536 else m.

(** ECMAScript [ToInt16], applied by [int16[i] = v]:
    NaN and the infinities store 0, a finite value is truncated and
    reduced modulo 2^16. *)
Definition ToInt16 (x : number) : Z :=
  match x with
  | Fin q => int16_of_Z (truncate q)
  | _ => 0
  end.

(** The loop of [createBlob]: [int16[i] = data[i] * 32768]. *)
Definition int16_samples (data : list number) : list Z :=
  map (fun x => ToInt16 (times32768 x)) data.

(** [new Uint8Array(int16.buffer)]: two bytes per sample, low byte first. *)
Definition Uint8Array_of_Int16Array (xs : list Z) : list Z :=
  flat_map (fun v => [v mod 256; (v / 256) mod 256]) xs.

(** [createBlob]; [encode] turns the bytes into base64 text. *)
Definition createBlob (samples : list number) : Genai.Blob :=
  {| Genai.data := Some (Uint8Array_of_Int16Array (int16_samples samples));
     Genai.mimeType := Some "audio/pcm;rate=16000"%string |}.

(** [new Int16Array(data.buffer)]: a byte length that is not a multiple
    of two raises RangeError. *)
Fixpoint Int16Array_of_bytes (bs : list Z) : Completion (list Z) :=
  match bs with
  | [] => Normal []
  | [_] => Throw RangeError
  | lo :: hi :: rest =>
      match Int16Array_of_bytes rest with
      | Normal xs => Normal (int16_of_Z (lo + 256 * hi) :: xs)
      | Throw e => Throw e
      end
  end.

Record AudioBuffer : Type := mkAudioBuffer {
  numberOfChannels : nat;
  length : nat;
  sampleRate : positive;
  channels : list (list Q)
}.

(** [audioBuffer.duration], in seconds: the length divided by the sample
    rate, as a Number. *)
Definition duration (b : AudioBuffer) : Double.double :=
  Double.div (Double.of_Z (Z.of_nat (length b)))
             (Double.of_Z (Zpos (sampleRate b))).

(** One channel of the decoded buffer:
    [channelData[i] = dataInt16[i * numChannels + channel] / 32768.0]. *)
Definition channelData (dataInt16 : list Z) (numChannels frameCount channel : nat)
  : list Q :=
  map (fun i => Qmake (nth (i * numChannels + channel)%nat dataInt16 0) 32768)
      (seq 0%nat frameCount).

(** The arguments every platform accepts in [ctx.createBuffer]: 1 to 32
    channels and a rate from 8000 to 96000 Hz.  Outside them the call may
    raise NotSupportedError, depending on the platform. *)
Definition supported (rate : positive) (numChannels : nat) : Prop :=
  (1 <= numChannels <= 32)%nat /\ 8000 <= Zpos rate <= 96000.

(** [decodePCMAudioData(data, ctx, sampleRate, numChannels)].
    [ctx.createBuffer] raises NotSupportedError for zero channels or a
    zero length; a fractional [frameCount] is truncated by the platform,
    and the extra loop iteration then writes out of range, which a typed
    array ignores.  [createBuffer] also raises NotSupportedError outside
    the channel counts and rates the platform supports: this function is
    the code's for [supported] arguments (the code itself calls it with
    24000 and 1), and says nothing about the others. *)
Definition decodePCMAudioData (bytes : list Z) (rate : positive) (numChannels : nat)
  : Completion AudioBuffer :=
  match Int16Array_of_bytes bytes with
  | Throw e => Throw e
  | Normal dataInt16 =>
      let frameCount := Nat.div (List.length dataInt16) numChannels in
      if (Nat.eqb numChannels 0%nat || Nat.eqb frameCount 0%nat)%bool
      then Throw NotSupportedError
      else Normal {| numberOfChannels := numChannels;
                     length := frameCount;
                     sampleRate := rate;
                     channels := map (channelData dataInt16 numChannels frameCount)
                                     (seq 0%nat numChannels) |}
  end.

End Codec.


(** ** The persona catalogue ([constants.tsx], [types.ts]) *)

Module Constants.
Local Open Scope string_scope.

Definition nl : string := String "010"%char EmptyString.
Definition dquote : string := String "034"%char EmptyString.

(** [Agent] of [types.ts]; the [icon] element plays no role here. *)
Record Agent : Type := mkAgent {
  id : string;
  name : string;
  description : string;
  systemInstruction : string
}.

Record Language : Type := mkLanguage {
  language_id : string;
  language_name : string
}.

Definition general : Agent :=
  {| id := "general";
     name := "General Assistant";
     description := "A friendly and helpful AI for any question.";
     systemInstruction := "You are a friendly and helpful general-purpose AI assistant. Be curious, kind, and provide detailed, accurate information." |}.

Definition language_tutor : Agent :=
  {| id := "language_tutor";
     name := "Language Tutor";
     description := "Helps you learn a new language.";
     systemInstruction :=
       "You are a friendly and patient language tutor. Your goal is to help the user learn {language}. Engage them in conversation, correct their mistakes gently, explain grammar, and introduce new vocabulary related to the conversation. Always respond primarily in {language} unless the user asks for an explanation in English. "
       ++ nl ++ "    " ++ nl ++
       "If the user chooses to learn Polish, you should also teach them a few words from the local Pozna≈Ñ slang, such as 'pyry' (potatoes), 'tej' (a common filler word, like 'hey' or 'you know'), 'wiara' (a group of people/friends), or 'bimba' (a tram). Introduce these naturally into the conversation." |}.

Definition blog_writer : Agent :=
  {| id := "blog_writer";
     name := "Blog Helper";
     description := "Helps with writing posts and finding ideas for your blog.";
     systemInstruction := "You are an expert AI assistant for a technology and AI blog. You help with writing engaging blog posts, generating creative ideas, proofreading content, and suggesting relevant topics. Your tone should be informative yet accessible." |}.

Definition comedian : Agent :=
  {| id := "comedian";
     name := "Cynical Comedian";
     description := "Tells jokes with a dark, sarcastic twist.";
     systemInstruction := "You are a cynical comedian with a very dry, sarcastic wit. Your humor is dark and observational. You tell jokes, make witty remarks, and view the world through a pessimistic but humorous lens. Never be genuinely mean, but maintain your cynical persona at all times. Your responses should be short and punchy like a stand-up comic." |}.

Definition translator : Agent :=
  {| id := "translator";
     name := "Polyglot Translator";
     description := "Translates text between different languages.";
     systemInstruction := "You are a professional translator. When the user provides text, your primary goal is to translate it to the requested language. If no target language is specified, politely ask for it. Provide accurate and natural-sounding translations." |}.

Definition positive_finder : Agent :=
  {| id := "positive_finder";
     name := "Positivity Seeker";
     description := "Finds positive news and uplifting information.";
     systemInstruction := "You are an AI assistant dedicated to finding and sharing positive news and uplifting information. Your goal is to brighten the user's day. When asked about a topic, focus on the positive aspects, success stories, and hopeful developments." |}.

Definition AGENTS : list Agent :=
  [general; language_tutor; blog_writer; comedian; translator; positive_finder].

Definition LANGUAGES : list Language :=
  [ mkLanguage "English" "English"; mkLanguage "Polish" "Polish";
    mkLanguage "Spanish" "Spanish"; mkLanguage "French" "French";
    mkLanguage "German" "German"; mkLanguage "Japanese" "Japanese" ].

End Constants.

(** ** String helpers of the platform *)

Module JsString.
Local Open Scope string_scope.

(** [s.includes(pat)] *)
Fixpoint includes (pat s : string) : bool :=
  match s with
  | EmptyString => prefix pat s
  | String _ rest => prefix pat s || includes pat rest
  end.

(** [s] without its first [n] characters. *)
Fixpoint drop (n : nat) (s : string) : string :=
  match n, s with
  | O, _ => s
  | S k, String _ rest => drop k rest
  | S _, EmptyString => EmptyString
  end.

(** ECMAScript GetSubstitution for a pattern without capture groups:
    in the replacement text [$$] stands for one dollar sign, [$&] for the
    matched text, [$`] for the text before the match and [$'] for the
    text after it; a dollar sign followed by anything else, a digit
    included since there is no group to name, stands for itself. *)
Fixpoint getSubstitution (matched before after rep : string) : string :=
  match rep with
  | EmptyString => EmptyString
  | String ch rest =>
      if Ascii.eqb ch "$"
      then
        match rest with
        | EmptyString => String ch EmptyString
        | String ch2 rest2 =>
            if Ascii.eqb ch2 "$"
            then String "$" (getSubstitution matched before after rest2)
            else if Ascii.eqb ch2 "&"
            then matched ++ getSubstitution matched before after rest2
            else if Ascii.eqb ch2 "`"
            then before ++ getSubstitution matched before after rest2
            else if Ascii.eqb ch2 "'"
            then after ++ getSubstitution matched before after rest2
            else String ch (getSubstitution matched before after rest)
        end
      else String ch (getSubstitution matched before after rest)
  end.

(** The walk of [s.replace(/pat/g, ...)] for a literal, non-empty
    pattern: matches are found left to right and do not overlap; [skip]
    counts the characters of a match still to be dropped, [before] is the
    text already passed, and [ins] gives what is put in place of a match
    from the text before it and the text after it. *)
Fixpoint replace_from (pat : string) (ins : string -> string -> string)
         (skip : nat) (before s : string) : string :=
  match s with
  | EmptyString => EmptyString
  | String ch rest =>
      match skip with
      | S k => replace_from pat ins k (before ++ String ch EmptyString) rest
      | O =>
          if prefix pat s
          then ins before (drop (String.length pat) s)
               ++ replace_from pat ins (String.length pat - 1)
                    (before ++ String ch EmptyString) rest
          else String ch (replace_from pat ins 0
                                       (before ++ String ch EmptyString) rest)
      end
  end.

(** [s.replace(/pat/g, rep)] with a string [rep]. *)
Definition replaceAll (pat rep s : string) : string :=
  replace_from pat (fun before after => getSubstitution pat before after rep)
               0 "" s.

(** Truthiness of a string value. *)
Definition truthy (s : string) : bool :=
  match s with
  | EmptyString => false
  | String _ _ => true
  end.

End JsString.

(** ** The text chat's instruction resolver ([TextChat.tsx]) *)

Module TextChat.
Import Constants.
Local Open Scope string_scope.

(** [getSystemInstruction]: the tutor persona has its placeholder
    replaced by the selected language's name. *)
Definition getSystemInstruction (agent : Agent) (selectedLanguage : Language) : string :=
  if String.eqb (id agent) "language_tutor"
  then JsString.replaceAll "{language}" (language_name selectedLanguage)
                           (systemInstruction agent)
  else systemInstruction agent.

End TextChat.


(** ** The live voice component ([components/LiveChat.tsx]) *)

Module LiveChat.
Import Constants.
Local Open Scope string_scope.

(** [fetchContextFromR2]: the simulated lookup, after its delay. *)
Definition fetchContextFromR2 (agentId : string) : string :=
  if String.eqb agentId "blog_writer" then
    nl ++ "- Recent Blog Post Title: " ++ dquote
       ++ "The Future of AI in Web Development" ++ dquote ++ nl
       ++ "- Upcoming Topic Idea: " ++ dquote
       ++ "Exploring Gemini 2.5 Pro's Advanced Features" ++ dquote ++ nl
       ++ "- User's preferred tone: Casual and informative." ++ nl
       ++ "            "
  else if String.eqb agentId "language_tutor" then
    nl ++ "- User's last session focus: Practicing past tense verbs in Spanish." ++ nl
       ++ "- Common mistake: Confusing 'por' and 'para'." ++ nl
       ++ "- Next learning goal: Introduce subjunctive mood." ++ nl
       ++ "            "
  else "".

Inductive SessionState : Type :=
| idle
| fetching_context
| connecting
| connected
| error.

Definition SessionState_eqb (a b : SessionState) : bool :=
  match a, b with
  | idle, idle | fetching_context, fetching_context
  | connecting, connecting | connected, connected | error, error => true
  | _, _ => false
  end.

Inductive Speaker : Type := user | model.

(** [TranscriptionEntry] of [types.ts] *)
Record TranscriptionEntry : Type := mkEntry {
  speaker : Speaker;
  text : string
}.

(** The promise held by [sessionPromiseRef]. *)
Inductive PromiseState : Type := Pending | Fulfilled | Rejected.

(** [AudioContext.state] *)
Inductive AudioContextState : Type := suspended | running | closed.

(** A media stream is the list of its tracks. *)
Definition MediaStream : Type := list nat.

Record ScriptProcessorNode : Type := mkScriptProcessor {
  bufferSize : nat
}.

Record MediaStreamAudioSourceNode : Type := mkSourceNode {
  mediaStream : MediaStream
}.

(** A buffer source exists in [outputAudioSources] only after
    [source.start(when)] was called on it. *)
Record AudioBufferSourceNode : Type := mkSource {
  buffer : Codec.AudioBuffer;
  when : Double.double
}.

(** React state and refs of the component.  [outputAudioSources] is a
    [Set]: insertion ordered, and every source added is a fresh object. *)
Record Component : Type := mkComponent {
  sessionState : SessionState;
  transcriptionHistory : list TranscriptionEntry;
  currentUserTranscription : string;
  currentModelTranscription : string;
  sessionPromiseRef : option PromiseState;
  inputAudioContextRef : option AudioContextState;
  outputAudioContextRef : option AudioContextState;
  microphoneStreamRef : option MediaStream;
  scriptProcessorRef : option ScriptProcessorNode;
  sourceNodeRef : option MediaStreamAudioSourceNode;
  outputAudioSources : list AudioBufferSourceNode;
  nextAudioStartTime : Double.double;
  userTranscriptRef : string;
  modelTranscriptRef : string
}.

Definition set_sessionState (v : SessionState) (c : Component) : Component :=
  mkComponent v (transcriptionHistory c) (currentUserTranscription c)
    (currentModelTranscription c) (sessionPromiseRef c)
    (inputAudioContextRef c) (outputAudioContextRef c)
    (microphoneStreamRef c) (scriptProcessorRef c) (sourceNodeRef c)
    (outputAudioSources c) (nextAudioStartTime c) (userTranscriptRef c)
    (modelTranscriptRef c).

Definition set_transcriptionHistory (v : list TranscriptionEntry) (c : Component) : Component :=
  mkComponent (sessionState c) v (currentUserTranscription c)
    (currentModelTranscription c) (sessionPromiseRef c)
    (inputAudioContextRef c) (outputAudioContextRef c)
    (microphoneStreamRef c) (scriptProcessorRef c) (sourceNodeRef c)
    (outputAudioSources c) (nextAudioStartTime c) (userTranscriptRef c)
    (modelTranscriptRef c).

Definition set_currentUserTranscription (v : string) (c : Component) : Component :=
  mkComponent (sessionState c) (transcriptionHistory c) v
    (currentModelTranscription c) (sessionPromiseRef c)
    (inputAudioContextRef c) (outputAudioContextRef c)
    (microphoneStreamRef c) (scriptProcessorRef c) (sourceNodeRef c)
    (outputAudioSources c) (nextAudioStartTime c) (userTranscriptRef c)
    (modelTranscriptRef c).

Definition set_currentModelTranscription (v : string) (c : Component) : Component :=
  mkComponent (sessionState c) (transcriptionHistory c)
    (currentUserTranscription c) v (sessionPromiseRef c)
    (inputAudioContextRef c) (outputAudioContextRef c)
    (microphoneStreamRef c) (scriptProcessorRef c) (sourceNodeRef c)
    (outputAudioSources c) (nextAudioStartTime c) (userTranscriptRef c)
    (modelTranscriptRef c).

Definition set_sessionPromiseRef (v : option PromiseState) (c : Component) : Component :=
  mkComponent (sessionState c) (transcriptionHistory c)
    (currentUserTranscription c) (currentModelTranscription c) v
    (inputAudioContextRef c) (outputAudioContextRef c)
    (microphoneStreamRef c) (scriptProcessorRef c) (sourceNodeRef c)
    (outputAudioSources c) (nextAudioStartTime c) (userTranscriptRef c)
    (modelTranscriptRef c).

Definition set_inputAudioContextRef (v : option AudioContextState) (c : Component) : Component :=
  mkComponent (sessionState c) (transcriptionHistory c)
    (currentUserTranscription c) (currentModelTranscription c)
    (sessionPromiseRef c) v (outputAudioContextRef c)
    (microphoneStreamRef c) (scriptProcessorRef c) (sourceNodeRef c)
    (outputAudioSources c) (nextAudioStartTime c) (userTranscriptRef c)
    (modelTranscriptRef c).

Definition set_outputAudioContextRef (v : option AudioContextState) (c : Component) : Component :=
  mkComponent (sessionState c) (transcriptionHistory c)
    (currentUserTranscription c) (currentModelTranscription c)
    (sessionPromiseRef c) (inputAudioContextRef c) v (microphoneStreamRef c)
    (scriptProcessorRef c) (sourceNodeRef c) (outputAudioSources c)
    (nextAudioStartTime c) (userTranscriptRef c) (modelTranscriptRef c).

Definition set_microphoneStreamRef (v : option MediaStream) (c : Component) : Component :=
  mkComponent (sessionState c) (transcriptionHistory c)
    (currentUserTranscription c) (currentModelTranscription c)
    (sessionPromiseRef c) (inputAudioContextRef c) (outputAudioContextRef c)
    v (scriptProcessorRef c) (sourceNodeRef c) (outputAudioSources c)
    (nextAudioStartTime c) (userTranscriptRef c) (modelTranscriptRef c).

Definition set_scriptProcessorRef (v : option ScriptProcessorNode) (c : Component) : Component :=
  mkComponent (sessionState c) (transcriptionHistory c)
    (currentUserTranscription c) (currentModelTranscription c)
    (sessionPromiseRef c) (inputAudioContextRef c) (outputAudioContextRef c)
    (microphoneStreamRef c) v (sourceNodeRef c) (outputAudioSources c)
    (nextAudioStartTime c) (userTranscriptRef c) (modelTranscriptRef c).

Definition set_sourceNodeRef (v : option MediaStreamAudioSourceNode) (c : Component) : Component :=
  mkComponent (sessionState c) (transcriptionHistory c)
    (currentUserTranscription c) (currentModelTranscription c)
    (sessionPromiseRef c) (inputAudioContextRef c) (outputAudioContextRef c)
    (microphoneStreamRef c) (scriptProcessorRef c) v (outputAudioSources c)
    (nextAudioStartTime c) (userTranscriptRef c) (modelTranscriptRef c).

Definition set_outputAudioSources (v : list AudioBufferSourceNode) (c : Component) : Component :=
  mkComponent (sessionState c) (transcriptionHistory c)
    (currentUserTranscription c) (currentModelTranscription c)
    (sessionPromiseRef c) (inputAudioContextRef c) (outputAudioContextRef c)
    (microphoneStreamRef c) (scriptProcessorRef c) (sourceNodeRef c) v
    (nextAudioStartTime c) (userTranscriptRef c) (modelTranscriptRef c).

Definition set_nextAudioStartTime (v : Double.double) (c : Component) : Component :=
  mkComponent (sessionState c) (transcriptionHistory c)
    (currentUserTranscription c) (currentModelTranscription c)
    (sessionPromiseRef c) (inputAudioContextRef c) (outputAudioContextRef c)
    (microphoneStreamRef c) (scriptProcessorRef c) (sourceNodeRef c)
    (outputAudioSources c) v (userTranscriptRef c) (modelTranscriptRef c).

Definition set_userTranscriptRef (v : string) (c : Component) : Component :=
  mkComponent (sessionState c) (transcriptionHistory c)
    (currentUserTranscription c) (currentModelTranscription c)
    (sessionPromiseRef c) (inputAudioContextRef c) (outputAudioContextRef c)
    (microphoneStreamRef c) (scriptProcessorRef c) (sourceNodeRef c)
    (outputAudioSources c) (nextAudioStartTime c) v (modelTranscriptRef c).

Definition set_modelTranscriptRef (v : string) (c : Component) : Component :=
  mkComponent (sessionState c) (transcriptionHistory c)
    (currentUserTranscription c) (currentModelTranscription c)
    (sessionPromiseRef c) (inputAudioContextRef c) (outputAudioContextRef c)
    (microphoneStreamRef c) (scriptProcessorRef c) (sourceNodeRef c)
    (outputAudioSources c) (nextAudioStartTime c) (userTranscriptRef c) v.

(** Calls to the platform and to the client library, as logged. *)
Inductive Effect : Type :=
| console_log
| console_error
| fetchContext (agentId : string)
| live_connect (instruction : string)
| getUserMedia
| sessionPromise_then_send (media : Genai.Blob)
| sessionPromise_then_close (p : PromiseState)
| session_close
| scriptProcessor_disconnect
| sourceNode_disconnect
| track_stop (track : nat)
| inputAudioContext_close
| outputAudioContext_close
| sourceNode_connect
| scriptProcessor_connect
| source_start (s : AudioBufferSourceNode)
| source_stop (s : AudioBufferSourceNode).

(** *** Programs over the component *)

Definition Prog (A : Type) : Type :=
  Component -> Completion A * Component * list Effect.

Definition ret {A : Type} (a : A) : Prog A :=
  fun c => (Normal a, c, []).

Definition bind {A B : Type} (m : Prog A) (k : A -> Prog B) : Prog B :=
  fun c =>
    match m c with
    | (Normal a, c1, log1) =>
        match k a c1 with
        | (r, c2, log2) => (r, c2, (log1 ++ log2)%list)
        end
    | (Throw e, c1, log1) => (Throw e, c1, log1)
    end.

Definition get {A : Type} (f : Component -> A) : Prog A :=
  fun c => (Normal (f c), c, []).

Definition modify (f : Component -> Component) : Prog unit :=
  fun c => (Normal tt, f c, []).

Definition call (e : Effect) : Prog unit :=
  fun c => (Normal tt, c, [e]).

Definition lift {A : Type} (r : Completion A) : Prog A :=
  fun c => (r, c, []).

Definition try_catch {A : Type} (m : Prog A) (handler : JsError -> Prog A) : Prog A :=
  fun c =>
    match m c with
    | (Normal a, c1, log1) => (Normal a, c1, log1)
    | (Throw e, c1, log1) =>
        match handler e c1 with
        | (r, c2, log2) => (r, c2, (log1 ++ log2)%list)
        end
    end.

Declare Scope prog_scope.
Delimit Scope prog_scope with prog.
Notation "x <- m ;; k" := (bind m (fun x => k))
  (at level 61, m at next level, right associativity) : prog_scope.
Notation "m ;; k" := (bind m (fun _ => k))
  (at level 61, right associativity) : prog_scope.
Local Open Scope prog_scope.

Fixpoint forEach {A : Type} (l : list A) (f : A -> Prog unit) : Prog unit :=
  match l with
  | [] => ret tt
  | x :: rest => f x ;; forEach rest f
  end.

Definition result {A : Type} (r : Completion A * Component * list Effect) : Completion A :=
  fst (fst r).
Definition after {A : Type} (r : Completion A * Component * list Effect) : Component :=
  snd (fst r).
Definition calls {A : Type} (r : Completion A * Component * list Effect) : list Effect :=
  snd r.

(** Reactions run as microtasks once the synchronous part of a job is
    over: a [then] callback on a fulfilled promise runs, on a rejected
    one the [catch(console.error)] runs, on a pending one nothing yet. *)
Definition reaction (e : Effect) : list Effect :=
  match e with
  | sessionPromise_then_close Fulfilled => [session_close]
  | sessionPromise_then_close Rejected => [console_error]
  | _ => []
  end.

(** The calls of a job in the order they are performed. *)
Definition job_calls (log : list Effect) : list Effect :=
  (log ++ flat_map reaction log)%list.

(** *** [cleanup] *)

Definition isOpen (s : AudioContextState) : bool :=
  match s with
  | closed => false
  | _ => true
  end.

Definition cleanup : Prog unit :=
  p <- get sessionPromiseRef ;;
  match p with
  | Some st => call (sessionPromise_then_close st) ;;
               modify (set_sessionPromiseRef None)
  | None => ret tt
  end ;;
  sp <- get scriptProcessorRef ;;
  match sp with
  | Some _ => call scriptProcessor_disconnect ;;
              modify (set_scriptProcessorRef None)
  | None => ret tt
  end ;;
  sn <- get sourceNodeRef ;;
  match sn with
  | Some _ => call sourceNode_disconnect ;;
              modify (set_sourceNodeRef None)
  | None => ret tt
  end ;;
  mic <- get microphoneStreamRef ;;
  match mic with
  | Some tracks => forEach tracks (fun track => call (track_stop track)) ;;
                   modify (set_microphoneStreamRef None)
  | None => ret tt
  end ;;
  ictx <- get inputAudioContextRef ;;
  match ictx with
  | Some st => if isOpen st
               then call inputAudioContext_close ;;
                    modify (set_inputAudioContextRef None)
               else ret tt
  | None => ret tt
  end ;;
  octx <- get outputAudioContextRef ;;
  match octx with
  | Some st => if isOpen st
               then call outputAudioContext_close ;;
                    modify (set_outputAudioContextRef None)
               else ret tt
  | None => ret tt
  end ;;
  sources <- get outputAudioSources ;;
  forEach sources (fun source => call (source_stop source)) ;;
  modify (set_outputAudioSources []) ;;
  modify (set_nextAudioStartTime Double.zero) ;;
  modify (set_sessionState idle) ;;
  modify (set_userTranscriptRef "") ;;
  modify (set_modelTranscriptRef "") ;;
  modify (set_currentUserTranscription "") ;;
  modify (set_currentModelTranscription "").

(** *** [onMessage] *)

(** [ref.current += text]; an absent text concatenates as "undefined". *)
Definition appendText (s : string) (t : option string) : string :=
  s ++ match t with
       | Some x => x
       | None => "undefined"
       end.

(** First block: accumulate a partial transcription. *)
Definition accumulate (message : Genai.LiveServerMessage) : Prog unit :=
  match Genai.serverContent message with
  | None => ret tt
  | Some sc =>
      match Genai.outputTranscription sc with
      | Some tr =>
          modify (fun c => set_modelTranscriptRef
                             (appendText (modelTranscriptRef c) (Genai.text tr)) c) ;;
          modify (fun c => set_currentModelTranscription (modelTranscriptRef c) c)
      | None =>
          match Genai.inputTranscription sc with
          | Some tr =>
              modify (fun c => set_userTranscriptRef
                                 (appendText (userTranscriptRef c) (Genai.text tr)) c) ;;
              modify (fun c => set_currentUserTranscription (userTranscriptRef c) c)
          | None => ret tt
          end
      end
  end.

Definition turnCompleted (message : Genai.LiveServerMessage) : bool :=
  match Genai.serverContent message with
  | Some sc =>
      match Genai.turnComplete sc with
      | Some b => b
      | None => false
      end
  | None => false
  end.

(** Second block: on a completed turn both buffers go to the history. *)
Definition finalizeTurn (message : Genai.LiveServerMessage) : Prog unit :=
  if turnCompleted message then
    fullInput <- get userTranscriptRef ;;
    fullOutput <- get modelTranscriptRef ;;
    modify (fun c => set_transcriptionHistory
                       (transcriptionHistory c ++
                        [ {| speaker := user; text := fullInput |};
                          {| speaker := model; text := fullOutput |} ])%list c) ;;
    modify (set_userTranscriptRef "") ;;
    modify (set_modelTranscriptRef "") ;;
    modify (set_currentUserTranscription "") ;;
    modify (set_currentModelTranscription "")
  else ret tt.

(** [message.serverContent?.modelTurn?.parts[0]?.inlineData.data]:
    a nullish value before [?.] ends the chain with undefined; indexing
    an absent [parts] and reading [data] of an absent [inlineData] raise
    TypeError. *)
Definition audioData (message : Genai.LiveServerMessage)
  : Completion (option (list Z)) :=
  match Genai.serverContent message with
  | None => Normal None
  | Some sc =>
      match Genai.modelTurn sc with
      | None => Normal None
      | Some turn =>
          match Genai.parts turn with
          | None => Throw TypeError
          | Some [] => Normal None
          | Some (part :: _) =>
              match Genai.inlineData part with
              | None => Throw TypeError
              | Some blob => Normal (Genai.data blob)
              end
          end
      end
  end.

(** Third block, inside the [if]: schedule one decoded segment.
    [now] is [outputCtx.currentTime].  The marker and the start offset
    are Numbers, added and compared as the platform does.  The listener
    registered for [ended] runs when playback of the source finishes and
    removes it from the set; that later callback is not part of this
    handler. *)
Definition schedule (bytes : list Z) (now : Double.double) : Prog unit :=
  modify (fun c => set_nextAudioStartTime
                     (Double.max (nextAudioStartTime c) now) c) ;;
  audioBuffer <- lift (Codec.decodePCMAudioData bytes 24000 1) ;;
  start <- get nextAudioStartTime ;;
  let source := {| buffer := audioBuffer; when := start |} in
  call (source_start source) ;;
  modify (fun c => set_nextAudioStartTime
                     (Double.add (nextAudioStartTime c)
                                 (Codec.duration audioBuffer)) c) ;;
  modify (fun c => set_outputAudioSources (outputAudioSources c ++ [source])%list c).

(** Third block as a whole: the optional chain, then the guarded [if]. *)
Definition playAudio (message : Genai.LiveServerMessage) (now : Double.double) : Prog unit :=
  payload <- lift (audioData message) ;;
  octx <- get outputAudioContextRef ;;
  match payload, octx with
  | Some (b :: bytes), Some _ => schedule (b :: bytes) now
  | _, _ => ret tt
  end.

Definition onMessage (message : Genai.LiveServerMessage) (now : Double.double) : Prog unit :=
  accumulate message ;;
  finalizeTurn message ;;
  playAudio message now.

(** The handler over a stream of messages, each with the clock reading
    at its arrival; a rejected call does not stop later deliveries. *)
Fixpoint deliver (messages : list (Genai.LiveServerMessage * Double.double)) (c : Component)
  : Component * list Effect :=
  match messages with
  | [] => (c, [])
  | (message, now) :: rest =>
      match onMessage message now c with
      | (_, c1, log1) =>
          match deliver rest c1 with
          | (c2, log2) => (c2, (log1 ++ log2)%list)
          end
      end
  end.

(** *** The other transport callbacks *)

Definition onOpen : Prog unit :=
  modify (set_sessionState connected).

Definition onError : Prog unit :=
  call console_error ;;
  modify (set_sessionState error) ;;
  cleanup.

Definition onClose : Prog unit :=
  cleanup.

(** *** [handleConnect] *)

Definition finalSystemInstruction (agent : Agent) : string :=
  let r2Context := fetchContextFromR2 (id agent) in
  if JsString.truthy r2Context
  then systemInstruction agent ++ nl ++ nl
         ++ "--- Additional Context from R2 ---" ++ nl ++ r2Context
  else systemInstruction agent.

(** [scriptProcessor.onaudioprocess] *)
Definition onaudioprocess (inputData : list Codec.number) : Prog unit :=
  let pcmBlob := Codec.createBlob inputData in
  p <- get sessionPromiseRef ;;
  match p with
  | Some _ => call (sessionPromise_then_send pcmBlob)
  | None => ret tt
  end.

(** [handleConnect], with the outcome of the microphone request given
    and no other callback running while it awaits.  The function is
    [async] and catches every failure of its body: its promise is never
    rejected. *)
Definition handleConnect (agent : Agent) (media : Completion MediaStream)
  : Prog unit :=
  st <- get sessionState ;;
  if negb (SessionState_eqb st idle) && negb (SessionState_eqb st error)
  then ret tt
  else
    modify (set_transcriptionHistory []) ;;
    try_catch
      (modify (set_sessionState fetching_context) ;;
       call (fetchContext (id agent)) ;;
       call console_log ;;
       modify (set_sessionState connecting) ;;
       call (live_connect (finalSystemInstruction agent)) ;;
       modify (set_sessionPromiseRef (Some Pending)) ;;
       call getUserMedia ;;
       stream <- lift media ;;
       modify (set_microphoneStreamRef (Some stream)) ;;
       modify (set_inputAudioContextRef (Some running)) ;;
       modify (set_outputAudioContextRef (Some running)) ;;
       modify (set_sourceNodeRef (Some {| mediaStream := stream |})) ;;
       modify (set_scriptProcessorRef (Some {| bufferSize := 4096 |})) ;;
       call sourceNode_connect ;;
       call scriptProcessor_connect)
      (fun _ =>
         call console_error ;;
         modify (set_sessionState error) ;;
         cleanup).

(** The button: [onClick={sessionState === 'connected' ? cleanup : handleConnect}] *)
Definition onClick (agent : Agent) (media : Completion MediaStream) : Prog unit :=
  st <- get sessionState ;;
  if SessionState_eqb st connected then cleanup else handleConnect agent media.

End LiveChat.

Module Fidelity.
Import Codec.
Local Open Scope Z_scope.

(** Capture encoder followed by playback decoder (mono, 24 kHz), as the
    playback path calls the decoder. *)
Definition roundtrip (samples : list number) : Completion AudioBuffer :=
  decodePCMAudioData (Genai.payload (createBlob samples)) 24000%positive 1%nat.

(** A finite sample in the closed interval [-1, 1]. *)
Definition in_unit_interval (s : number) : Prop :=
  exists x, s = Fin x /\ (-1 <= x)%Q /\ (x <= 1)%Q.

(** Every finite sample of the buffer comes back within one step of the
    16-bit scale. *)
Definition roundtrip_within_lsb (samples : list number) : Prop :=
  forall i x,
    nth_error samples i = Some (Fin x) ->
    exists buf ch y,
      roundtrip samples = Normal buf
      /\ channels buf = [ch]
      /\ nth_error ch i = Some y
      /\ (Qabs (y - x) <= 1 # 32768)%Q.

(** Clamping, for one sample: at or above 1 the largest 16-bit value is
    stored, at or below -1 the smallest. *)
Definition clamps (x : Q) : Prop :=
  ((1 <= x)%Q -> ToInt16 (times32768 (Fin x)) = 32767)
  /\ ((x <= -1)%Q -> ToInt16 (times32768 (Fin x)) = -32768).

End Fidelity.

(** ** Vocabulary of the properties *)

Module Playback.
Import LiveChat.

(** The sources started by a log of calls, in order. *)
Definition started (log : list Effect) : list AudioBufferSourceNode :=
  flat_map (fun e => match e with
                     | source_start s => [s]
                     | _ => []
                     end) log.

(** Where a started source ends on the output clock. *)
Definition sourceEnd (s : AudioBufferSourceNode) : Double.double :=
  Double.add (when s) (Codec.duration (buffer s)).

(** Every source starts at or after [marker], the end of the one before. *)
Fixpoint gapless (marker : Double.double) (l : list AudioBufferSourceNode) : Prop :=
  match l with
  | [] => True
  | s :: rest => Double.leb marker (when s) = true /\ gapless (sourceEnd s) rest
  end.

(** The segment scheduled for a decoded buffer at clock reading [now]:
    it starts at the later of the end marker and the clock. *)
Definition segment (c : Component) (now : Double.double) (b : Codec.AudioBuffer)
  : AudioBufferSourceNode :=
  {| buffer := b; when := Double.max (nextAudioStartTime c) now |}.

(** The component once that segment is scheduled: the end marker is the
    segment's start plus its duration, and the segment joins the set. *)
Definition enqueued (c : Component) (now : Double.double) (b : Codec.AudioBuffer) : Component :=
  set_outputAudioSources (outputAudioSources c ++ [segment c now b])
    (set_nextAudioStartTime (sourceEnd (segment c now b)) c).

(** How the third block of the handler can end. *)
Inductive PlayOutcome (c : Component) (now : Double.double)
  : Completion unit * Component * list Effect -> Prop :=
| play_nothing : PlayOutcome c now (Normal tt, c, [])
| play_chain_fails : PlayOutcome c now (Throw TypeError, c, [])
| play_decode_fails (e : JsError) :
    PlayOutcome c now
      (Throw e,
       set_nextAudioStartTime (Double.max (nextAudioStartTime c) now) c, [])
| play_segment (bytes : list Z) (b : Codec.AudioBuffer) :
    Codec.decodePCMAudioData bytes 24000 1 = Normal b ->
    PlayOutcome c now
      (Normal tt, enqueued c now b, [source_start (segment c now b)]).

End Playback.

Module Teardown.
Import LiveChat.
Local Open Scope string_scope.

(** The component as [cleanup] leaves it: a context found closed stays
    in its ref, everything else is reset. *)
Definition keptContext (r : option AudioContextState) : option AudioContextState :=
  match r with
  | Some closed => Some closed
  | _ => None
  end.

Definition cleaned (c : Component) : Component :=
  {| sessionState := idle;
     transcriptionHistory := transcriptionHistory c;
     currentUserTranscription := "";
     currentModelTranscription := "";
     sessionPromiseRef := None;
     inputAudioContextRef := keptContext (inputAudioContextRef c);
     outputAudioContextRef := keptContext (outputAudioContextRef c);
     microphoneStreamRef := None;
     scriptProcessorRef := None;
     sourceNodeRef := None;
     outputAudioSources := [];
     nextAudioStartTime := Double.zero;
     userTranscriptRef := "";
     modelTranscriptRef := "" |}.

Definition ifSome {A : Type} (r : option A) (f : A -> list Effect) : list Effect :=
  match r with
  | Some a => f a
  | None => []
  end.

Definition ifOpen (r : option AudioContextState) (e : Effect) : list Effect :=
  match r with
  | Some st => if isOpen st then [e] else []
  | None => []
  end.

(** The calls [cleanup] makes, block by block. *)
Definition closeRequest (c : Component) : list Effect :=
  ifSome (sessionPromiseRef c) (fun st => [sessionPromise_then_close st]).

Definition captureStop (c : Component) : list Effect :=
  (ifSome (scriptProcessorRef c) (fun _ => [scriptProcessor_disconnect])
   ++ ifSome (sourceNodeRef c) (fun _ => [sourceNode_disconnect])
   ++ ifSome (microphoneStreamRef c) (map track_stop)
   ++ ifOpen (inputAudioContextRef c) inputAudioContext_close)%list.

Definition outputRelease (c : Component) : list Effect :=
  (ifOpen (outputAudioContextRef c) outputAudioContext_close
   ++ map source_stop (outputAudioSources c))%list.

(** Steps of a teardown. *)
Inductive Step : Type :=
| RequestClose   (* the [then] callback closing the session is registered *)
| StopCapture
| ReleaseOutput
| RunClose.      (* [session.close()] is called *)

Definition step_of (e : Effect) : option Step :=
  match e with
  | sessionPromise_then_close _ => Some RequestClose
  | session_close => Some RunClose
  | scriptProcessor_disconnect | sourceNode_disconnect
  | track_stop _ | inputAudioContext_close => Some StopCapture
  | outputAudioContext_close | source_stop _ => Some ReleaseOutput
  | _ => None
  end.

Definition steps (log : list Effect) : list Step :=
  flat_map (fun e => match step_of e with
                     | Some s => [s]
                     | None => []
                     end) log.

(** The order the specification asks for: capture, then the transport
    (whether requested or run), then the output. *)
Definition specified_rank (s : Step) : nat :=
  match s with
  | StopCapture => 0
  | RequestClose | RunClose => 1
  | ReleaseOutput => 2
  end.

(** The order of the code. *)
Definition actual_rank (s : Step) : nat :=
  match s with
  | RequestClose => 0
  | StopCapture => 1
  | ReleaseOutput => 2
  | RunClose => 3
  end.

Fixpoint nondecreasing_from (lo : nat) (l : list nat) : bool :=
  match l with
  | [] => true
  | x :: rest => (lo <=? x)%nat && nondecreasing_from x rest
  end.

Definition in_order (rank : Step -> nat) (log : list Effect) : bool :=
  nondecreasing_from 0 (map rank (steps log)).

(** Ranks of the steps of a log in the order of the code. *)
Definition ranks (log : list Effect) : list nat := map actual_rank (steps log).

End Teardown.

Module Transcript.
Import LiveChat.
Local Open Scope string_scope.

(** The reconciler as the specification words it: one entry for each
    non-empty buffer, user first, then model. *)
Definition nonempty_entries (userBuffer modelBuffer : string)
  : list TranscriptionEntry :=
  ((if JsString.truthy userBuffer
    then [ {| speaker := user; text := userBuffer |} ] else [])
   ++
   (if JsString.truthy modelBuffer
    then [ {| speaker := model; text := modelBuffer |} ] else []))%list.

(** What the handler appends: both buffers, always. *)
Definition both_entries (userBuffer modelBuffer : string)
  : list TranscriptionEntry :=
  [ {| speaker := user; text := userBuffer |};
    {| speaker := model; text := modelBuffer |} ].

End Transcript.

Module Shape.

(** No audio part: no [serverContent], no [modelTurn], or an empty
    [parts] list. *)
Definition noAudioPart (message : Genai.LiveServerMessage) : bool :=
  match Genai.serverContent message with
  | None => true
  | Some sc =>
      match Genai.modelTurn sc with
      | None => true
      | Some turn =>
          match Genai.parts turn with
          | Some [] => true
          | _ => false
          end
      end
  end.

(** The model turn has a first part, and that part has no [inlineData]. *)
Definition firstPartLacksInlineData (message : Genai.LiveServerMessage) : bool :=
  match Genai.serverContent message with
  | None => false
  | Some sc =>
      match Genai.modelTurn sc with
      | None => false
      | Some turn =>
          match Genai.parts turn with
          | Some (part :: _) =>
              match Genai.inlineData part with
              | None => true
              | Some _ => false
              end
          | _ => false
          end
      end
  end.

End Shape.

Module Scenario.
Import Constants LiveChat.
Local Open Scope string_scope.

(** A freshly mounted component. *)
Definition mounted : Component :=
  {| sessionState := idle;
     transcriptionHistory := [];
     currentUserTranscription := "";
     currentModelTranscription := "";
     sessionPromiseRef := None;
     inputAudioContextRef := None;
     outputAudioContextRef := None;
     microphoneStreamRef := None;
     scriptProcessorRef := None;
     sourceNodeRef := None;
     outputAudioSources := [];
     nextAudioStartTime := Double.zero;
     userTranscriptRef := "";
     modelTranscriptRef := "" |}.

(** An open session with one microphone track. *)
Definition live : Component :=
  {| sessionState := connected;
     transcriptionHistory := [];
     currentUserTranscription := "";
     currentModelTranscription := "";
     sessionPromiseRef := Some Fulfilled;
     inputAudioContextRef := Some running;
     outputAudioContextRef := Some running;
     microphoneStreamRef := Some [0%nat];
     scriptProcessorRef := Some {| bufferSize := 4096 |};
     sourceNodeRef := Some {| mediaStream := [0%nat] |};
     outputAudioSources := [];
     nextAudioStartTime := Double.zero;
     userTranscriptRef := "";
     modelTranscriptRef := "" |}.

Definition withBuffers (userBuffer modelBuffer : string) (c : Component) : Component :=
  set_currentUserTranscription userBuffer
    (set_currentModelTranscription modelBuffer
       (set_userTranscriptRef userBuffer
          (set_modelTranscriptRef modelBuffer c))).

(** A message carrying only the turn-complete marker. *)
Definition turnCompleteMessage : Genai.LiveServerMessage :=
  {| Genai.serverContent :=
       Some {| Genai.outputTranscription := None;
               Genai.inputTranscription := None;
               Genai.turnComplete := Some true;
               Genai.modelTurn := None |} |}.

Definition withParts (ps : option (list Genai.Part)) : Genai.LiveServerMessage :=
  {| Genai.serverContent :=
       Some {| Genai.outputTranscription := None;
               Genai.inputTranscription := None;
               Genai.turnComplete := None;
               Genai.modelTurn := Some {| Genai.parts := ps |} |} |}.

(** A message whose single part carries an audio payload. *)
Definition audioMessage (bytes : list Z) : Genai.LiveServerMessage :=
  withParts (Some [ {| Genai.inlineData :=
                         Some {| Genai.data := Some bytes;
                                 Genai.mimeType := Some "audio/pcm;rate=24000" |} |} ]).

(** A message whose first part is a text part, without [inlineData]. *)
Definition textPartMessage : Genai.LiveServerMessage :=
  withParts (Some [ {| Genai.inlineData := None |} ]).

Definition French : Language := mkLanguage "French" "French".

(** A start that is rejected with InvalidState. *)
Definition rejects_with_InvalidState
           (agent : Agent) (media : Completion MediaStream) (c : Component) : Prop :=
  result (handleConnect agent media c) = Throw InvalidStateError.

End Scenario.

(** ** The component over time

    [handleConnect] suspends twice, at the context lookup and at the
    microphone request, and other callbacks can run in between.  Its three
    stretches are given here one by one, and the callbacks of the component
    as events. *)

Module Lifecycle.
Import Constants LiveChat.
Local Open Scope string_scope.
Local Open Scope prog_scope.

(** [getButtonState], without the icon. *)
Record ButtonState : Type := mkButtonState {
  text : string;
  disabled : bool;
  style : string
}.

Definition getButtonState (st : SessionState) : ButtonState :=
  match st with
  | idle =>
      {| text := "Start Conversation"; disabled := false;
         style := "bg-blue-600 hover:bg-blue-700" |}
  | fetching_context =>
      {| text := "Fetching Context..."; disabled := true; style := "bg-gray-500" |}
  | connecting =>
      {| text := "Connecting..."; disabled := true; style := "bg-gray-500" |}
  | connected =>
      {| text := "End Conversation"; disabled := false;
         style := "bg-red-600 hover:bg-red-700" |}
  | error =>
      {| text := "Error - Retry"; disabled := false;
         style := "bg-yellow-600 hover:bg-yellow-700" |}
  end.

(** The [catch] block of [handleConnect]. *)
Definition startFailed : Prog unit :=
  call console_error ;;
  modify (set_sessionState error) ;;
  cleanup.

(** [handleConnect] up to [await fetchContextFromR2(agent.id)]; the value
    tells whether the guard let the call through. *)
Definition handleConnect_begin (agent : Agent) : Prog bool :=
  st <- get sessionState ;;
  if negb (SessionState_eqb st idle) && negb (SessionState_eqb st error)
  then ret false
  else
    modify (set_transcriptionHistory []) ;;
    modify (set_sessionState fetching_context) ;;
    call (fetchContext (id agent)) ;;
    ret true.

(** From the context's arrival up to [await getUserMedia]. *)
Definition handleConnect_contextReady (agent : Agent) : Prog unit :=
  call console_log ;;
  modify (set_sessionState connecting) ;;
  call (live_connect (finalSystemInstruction agent)) ;;
  modify (set_sessionPromiseRef (Some Pending)) ;;
  call getUserMedia.

(** From the outcome of the microphone request to the end. *)
Definition handleConnect_mediaSettled (media : Completion MediaStream) : Prog unit :=
  try_catch
    (stream <- lift media ;;
     modify (set_microphoneStreamRef (Some stream)) ;;
     modify (set_inputAudioContextRef (Some running)) ;;
     modify (set_outputAudioContextRef (Some running)) ;;
     modify (set_sourceNodeRef (Some {| mediaStream := stream |})) ;;
     modify (set_scriptProcessorRef (Some {| bufferSize := 4096 |})) ;;
     call sourceNode_connect ;;
     call scriptProcessor_connect)
    (fun _ => startFailed).

(** The three stretches run back to back. *)
Definition handleConnect_stretches (agent : Agent) (media : Completion MediaStream)
  : Prog unit :=
  entered <- handleConnect_begin agent ;;
  if entered
  then handleConnect_contextReady agent ;; handleConnect_mediaSettled media
  else ret tt.

(** A click on the button; a disabled button does not fire. *)
Definition buttonClicked (agent : Agent) : Prog unit :=
  st <- get sessionState ;;
  if disabled (getButtonState st) then ret tt
  else if SessionState_eqb st connected then cleanup
  else (_ <- handleConnect_begin agent ;; ret tt).

(** The session promise settles. *)
Definition sessionSettled (outcome : PromiseState) : Prog unit :=
  p <- get sessionPromiseRef ;;
  match p with
  | Some Pending => modify (set_sessionPromiseRef (Some outcome))
  | _ => ret tt
  end.

Inductive Event : Type :=
| ButtonClicked (agent : Agent)
| ContextReady (agent : Agent)
| MediaSettled (media : Completion MediaStream)
| SessionSettled (outcome : PromiseState)
| Opened
| Message (message : Genai.LiveServerMessage) (now : Double.double)
| Errored
| Closed
| AudioProcess (inputData : list Codec.number)
| Unmounted.

Definition handler (e : Event) : Prog unit :=
  match e with
  | ButtonClicked agent => buttonClicked agent
  | ContextReady agent => handleConnect_contextReady agent
  | MediaSettled media => handleConnect_mediaSettled media
  | SessionSettled outcome => sessionSettled outcome
  | Opened => onOpen
  | Message message now => onMessage message now
  | Errored => onError
  | Closed => onClose
  | AudioProcess inputData => onaudioprocess inputData
  | Unmounted => cleanup
  end.

(** The events that run no teardown: the session promise settles, the
    connection opens, a message arrives, the microphone delivers a
    window.  Any of them can occur while [handleConnect] awaits. *)
Definition quiet (e : Event) : bool :=
  match e with
  | SessionSettled _ | Opened | Message _ _ | AudioProcess _ => true
  | _ => false
  end.

(** The component after a sequence of events, in any order. *)
Fixpoint run (events : list Event) (c : Component) : Component :=
  match events with
  | [] => c
  | e :: rest => run rest (after (handler e c))
  end.

(** The displayed partial transcripts are the accumulated buffers. *)
Definition synced (c : Component) : Prop :=
  currentUserTranscription c = userTranscriptRef c
  /\ currentModelTranscription c = modelTranscriptRef c.

(** A history made of turns: a user entry followed by a model entry. *)
Fixpoint paired (h : list TranscriptionEntry) : Prop :=
  match h with
  | [] => True
  | [_] => False
  | e1 :: e2 :: rest => speaker e1 = user /\ speaker e2 = model /\ paired rest
  end.

(** The capture and playback refs are all set or all null, and a context
    held is not closed. *)
Definition allOrNothing (c : Component) : Prop :=
  (microphoneStreamRef c = None
   /\ scriptProcessorRef c = None
   /\ sourceNodeRef c = None
   /\ inputAudioContextRef c = None
   /\ outputAudioContextRef c = None)
  \/ (exists stream processor inputCtx outputCtx,
        microphoneStreamRef c = Some stream
        /\ scriptProcessorRef c = Some processor
        /\ sourceNodeRef c = Some {| mediaStream := stream |}
        /\ inputAudioContextRef c = Some inputCtx
        /\ outputAudioContextRef c = Some outputCtx
        /\ isOpen inputCtx = true
        /\ isOpen outputCtx = true).

(** The four properties kept by every handler. *)
Definition steady (c : Component) : Prop :=
  synced c /\ paired (transcriptionHistory c) /\ allOrNothing c
  /\ sessionState c <> error.

(** Two components with the same session: state, session promise,
    microphone, nodes and contexts. *)
Definition sameSession (c c' : Component) : Prop :=
  sessionState c' = sessionState c
  /\ sessionPromiseRef c' = sessionPromiseRef c
  /\ microphoneStreamRef c' = microphoneStreamRef c
  /\ scriptProcessorRef c' = scriptProcessorRef c
  /\ sourceNodeRef c' = sourceNodeRef c
  /\ inputAudioContextRef c' = inputAudioContextRef c
  /\ outputAudioContextRef c' = outputAudioContextRef c.

(** The messages of a stream that complete a turn. *)
Definition turnsCompleted (messages : list (Genai.LiveServerMessage * Double.double)) : nat :=
  List.length (filter (fun m => turnCompleted (fst m)) messages).

(** A message carrying one partial transcription and nothing else. *)
Definition partialMessage (who : Speaker) (t : string) : Genai.LiveServerMessage :=
  {| Genai.serverContent :=
       Some {| Genai.outputTranscription :=
                 match who with
                 | model => Some {| Genai.text := Some t |}
                 | user => None
                 end;
               Genai.inputTranscription :=
                 match who with
                 | user => Some {| Genai.text := Some t |}
                 | model => None
                 end;
               Genai.turnComplete := None;
               Genai.modelTurn := None |} |}.

(** What one speaker said in a list of partial texts, in order. *)
Fixpoint said (who : Speaker) (partials : list (Speaker * string)) : string :=
  match partials with
  | [] => ""
  | (user, t) :: rest =>
      match who with
      | user => t ++ said who rest
      | model => said who rest
      end
  | (model, t) :: rest =>
      match who with
      | model => t ++ said who rest
      | user => said who rest
      end
  end.

(** The partial texts as a stream of messages, each with a clock reading. *)
Definition partialStream (partials : list (Speaker * string * Double.double))
  : list (Genai.LiveServerMessage * Double.double) :=
  map (fun p => (partialMessage (fst (fst p)) (snd (fst p)), snd p)) partials.

End Lifecycle.

(** ** The text chat ([components/TextChat.tsx]): sending a message *)

Module TextChatComponent.
Import Constants.
Local Open Scope string_scope.

Inductive Role : Type := user | model.

(** [ChatMessage] of [types.ts] *)
Record ChatMessage : Type := mkMessage {
  role : Role;
  content : string
}.

(** The chat session, created with its system instruction. *)
Inductive Chat : Type := chatWith (systemInstruction : string).

(** The chat state of the component. *)
Record Component : Type := mkComponent {
  chat : option Chat;
  messages : list ChatMessage;
  input : string;
  isLoading : bool
}.

Inductive Effect : Type :=
| sendMessageStream (message : string)
| console_error.

(** A streamed response: the chunks received, each with its text if it
    has one, and whether the request or the stream then failed. *)
Record ResponseStream : Type := mkStream {
  chunks : list (option string);
  failed : bool
}.

(** [initChat], run when the agent or the language changes: a new chat
    and an empty conversation, or one error message if creation fails. *)
Definition initChat (agent : Agent) (selectedLanguage : Language) (created : bool)
           (c : Component) : Component :=
  if created
  then {| chat := Some (chatWith (TextChat.getSystemInstruction agent selectedLanguage));
          messages := [];
          input := input c;
          isLoading := isLoading c |}
  else {| chat := chat c;
          messages := [ {| role := model;
                           content := "Error: Could not initialize chat session." |} ];
          input := input c;
          isLoading := isLoading c |}.

(** [newMessages[newMessages.length - 1] = m] on a copy: the last element
    is replaced; on an empty array index -1 is no element and the array
    stays empty. *)
Definition replaceLast (l : list ChatMessage) (m : ChatMessage) : list ChatMessage :=
  match l with
  | [] => []
  | _ :: _ => removelast l ++ [m]
  end.

(** The [for await] loop: [accumulatedText += chunk.text], then the last
    message becomes the text so far. *)
Fixpoint receive (cs : list (option string)) (accumulatedText : string)
         (msgs : list ChatMessage) : list ChatMessage :=
  match cs with
  | [] => msgs
  | chunk :: rest =>
      let accumulatedText' := LiveChat.appendText accumulatedText chunk in
      receive rest accumulatedText'
              (replaceLast msgs {| role := model; content := accumulatedText' |})
  end.

Definition errorMessage : ChatMessage :=
  {| role := model; content := "Sorry, something went wrong. Please try again." |}.

(** The whole text of a stream. *)
Definition replyText (cs : list (option string)) : string :=
  fold_left LiveChat.appendText cs "".

Section WithTrim.

(** [!input.trim()]: whether the input is empty once trimmed. *)
Variable isBlank : string -> bool.

(** [handleSendMessage], with the response it will get. *)
Definition handleSendMessage (response : ResponseStream) (c : Component)
  : Component * list Effect :=
  if isBlank (input c)
     || match chat c with Some _ => false | None => true end
     || isLoading c
  then (c, [])
  else
    let userMessage := {| role := user; content := input c |} in
    let currentInput := input c in
    let placed := ((messages c ++ [userMessage])
                   ++ [ {| role := model; content := "" |} ])%list in
    let streamed := receive (chunks response) "" placed in
    ({| chat := chat c;
        messages := if failed response
                    then replaceLast streamed errorMessage
                    else streamed;
        input := "";
        isLoading := false |},
     sendMessageStream currentInput
       :: (if failed response then [console_error] else [])).

End WithTrim.

(** A trim test for ASCII input: every character is a blank. *)
Definition asciiBlank (s : string) : bool :=
  forallb (fun ch => existsb (Ascii.eqb ch)
                       [" "%char; "009"%char; "010"%char; "011"%char;
                        "012"%char; "013"%char])
          (list_ascii_of_string s).

End TextChatComponent.

(* ================================================================== *)
(** * Part II: properties                                              *)
(* ================================================================== *)

(** ** Order and sign of clock values *)

Module DoubleFacts.
Import Double.

Lemma leb_key (x y : double) :
  leb x y = true <-> x <> S754_nan /\ y <> S754_nan /\ key_le (key x) (key y).
Proof.
  unfold leb, SFleb, SFcompare, key_le, key.
  destruct x as [sx | sx | | sx mx ex], y as [sy | sy | | sy my ey];
    try destruct sx; try destruct sy; cbn;
    try (split; [intros H; try discriminate; repeat split; try discriminate; lia
                | intros (H1 & H2 & H3); try congruence; try reflexivity; lia]).
  all: change (Pos.compare_cont Eq mx my) with (Pos.compare mx my).
  all: destruct (Z.compare_spec ex ey) as [E | E | E]; cbn;
    [destruct (Pos.compare_spec mx my) as [M | M | M]; cbn | |].
  all: (split; [intros H; try discriminate; repeat split; try discriminate; lia
               | intros (H1 & H2 & H3); try reflexivity; lia]).
Qed.

Lemma leb_refl (x : double) : x <> S754_nan -> leb x x = true.
Proof.
  intros H. apply leb_key. repeat split; trivial.
  unfold key_le. destruct (key x) as [[a b] c]. lia.
Qed.

Lemma leb_trans (x y z : double) :
  leb x y = true -> leb y z = true -> leb x z = true.
Proof.
  rewrite !leb_key. intros (Hx & Hy & Hxy) (_ & Hz & Hyz).
  repeat split; trivial. unfold key_le in *.
  destruct (key x) as [[a1 b1] c1], (key y) as [[a2 b2] c2],
    (key z) as [[a3 b3] c3]. lia.
Qed.

Lemma nonneg_not_nan (x : double) : nonneg x = true -> x <> S754_nan.
Proof. now destruct x. Qed.

Lemma ltb_leb (x y : double) : ltb x y = true -> leb x y = true.
Proof.
  unfold ltb, leb, SFltb, SFleb.
  now destruct (SFcompare x y) as [[] |].
Qed.

(** [Math.max] is at least its first argument. *)
Lemma leb_max_l (x y : double) :
  x <> S754_nan -> y <> S754_nan -> leb x (max x y) = true.
Proof.
  intros Hx Hy. unfold max.
  destruct x as [sx | sx | | sx mx ex] eqn:Ex, y as [sy | sy | | sy my ey] eqn:Ey;
    try contradiction; try reflexivity;
    match goal with
    | |- leb ?a (if ltb ?a ?b then ?b else ?a) = true =>
        destruct (ltb a b) eqn:L; [now apply ltb_leb | now apply leb_refl]
    end.
Qed.

Lemma nonneg_max (x y : double) :
  nonneg x = true -> nonneg y = true -> nonneg (max x y) = true.
Proof.
  intros Hx Hy. unfold max.
  destruct x as [sx | [] | | [] mx ex], y as [sy | [] | | [] my ey];
    try discriminate; try reflexivity;
    match goal with
    | |- nonneg (if ?b then _ else _) = true => now destruct b
    end.
Qed.

(** Rounding keeps a mantissa that is not negative so. *)
Lemma shr_1_nonneg (mrs : shr_record) :
  (0 <= shr_m mrs)%Z -> (0 <= shr_m (shr_1 mrs))%Z.
Proof.
  destruct mrs as [m r s]. cbn [shr_m].
  destruct m as [| [p | p |] | p]; cbn; lia.
Qed.

Lemma iter_shr_1_nonneg (p : positive) :
  forall mrs, (0 <= shr_m mrs)%Z -> (0 <= shr_m (iter_pos shr_1 p mrs))%Z.
Proof.
  induction p as [p IH | p IH |]; intros mrs H; cbn [iter_pos].
  - apply IH, IH. now apply shr_1_nonneg.
  - now apply IH, IH.
  - now apply shr_1_nonneg.
Qed.

Lemma shr_fexp_nonneg (m e : Z) (l : location) :
  (0 <= m)%Z -> (0 <= shr_m (fst (shr_fexp prec emax m e l)))%Z.
Proof.
  intros H. unfold shr_fexp, shr.
  assert (H0 : (0 <= shr_m (shr_record_of_loc m l))%Z)
    by (destruct l as [| []]; exact H).
  destruct (fexp prec emax (Zdigits2 m + e) - e)%Z; cbn [fst]; trivial.
  now apply iter_shr_1_nonneg.
Qed.

Lemma round_nearest_even_nonneg (m : Z) (l : location) :
  (0 <= m)%Z -> (0 <= round_nearest_even m l)%Z.
Proof.
  intros H. destruct l as [| []]; cbn; try lia.
  destruct (Z.even m); lia.
Qed.

Lemma binary_round_aux_nonneg (m e : Z) (l : location) :
  (0 <= m)%Z -> nonneg (binary_round_aux prec emax false m e l) = true.
Proof.
  intros H. unfold binary_round_aux.
  pose proof (shr_fexp_nonneg m e l H) as H1.
  destruct (shr_fexp prec emax m e l) as [mrs' e']. cbn [fst] in H1.
  pose proof (shr_fexp_nonneg
                (round_nearest_even (shr_m mrs') (loc_of_shr_record mrs'))
                e' loc_Exact
                (round_nearest_even_nonneg _ _ H1)) as H2.
  destruct (shr_fexp prec emax _ e' loc_Exact) as [mrs'' e'']. cbn [fst] in H2.
  destruct (shr_m mrs'') as [| p | p]; [reflexivity | | lia].
  now destruct (e'' <=? emax - prec)%Z.
Qed.

Lemma binary_round_nonneg (m : positive) (e : Z) :
  nonneg (binary_round prec emax false m e) = true.
Proof.
  unfold binary_round.
  destruct (shl_align m e _) as [mz ez].
  now apply binary_round_aux_nonneg.
Qed.

Lemma nonneg_of_Z (n : Z) : (0 <= n)%Z -> nonneg (of_Z n) = true.
Proof.
  intros H. unfold of_Z, binary_normalize.
  destruct n as [| p | p]; [reflexivity | apply binary_round_nonneg | lia].
Qed.

(** A sum of values that are not negative is not negative, and not NaN. *)
Lemma nonneg_add (x y : double) :
  nonneg x = true -> nonneg y = true -> nonneg (add x y) = true.
Proof.
  intros Hx Hy. unfold add, SFadd.
  destruct x as [sx | [] | | [] mx ex], y as [sy | [] | | [] my ey];
    try discriminate; try reflexivity.
  - now destruct sx, sy.
  - cbn [cond_Zopp]. unfold binary_normalize.
    destruct (shl_align mx ex (Z.min ex ey)) as [a ea].
    destruct (shl_align my ey (Z.min ex ey)) as [b eb].
    cbn [fst Z.add]. apply binary_round_nonneg.
Qed.

(** A quotient by a positive finite value keeps the same. *)
Lemma nonneg_div (x : double) (my : positive) (ey : Z) :
  nonneg x = true -> nonneg (div x (S754_finite false my ey)) = true.
Proof.
  intros Hx. unfold div, SFdiv.
  destruct x as [sx | [] | | [] mx ex]; try discriminate; try reflexivity.
  cbn [xorb]. unfold SFdiv_core_binary.
  set (m' := match (ex - ey - _)%Z with
             | Zpos _ => _ | Z0 => _ | Zneg _ => _ end).
  assert (Hm : (0 <= m')%Z).
  { subst m'. destruct (ex - ey - _)%Z; try lia.
    apply Z.shiftl_nonneg. lia. }
  pose proof (Z_div_mod m' (Zpos my) ltac:(lia)) as Hd.
  destruct (Z.div_eucl m' (Zpos my)) as [q r].
  apply binary_round_aux_nonneg. nia.
Qed.

End DoubleFacts.

Module CodecFacts.
Import Codec Fidelity.
Local Open Scope Z_scope.

Lemma int16_of_Z_range (n : Z) : (-32768 <= int16_of_Z n < 32768)%Z.
Proof.
  unfold int16_of_Z.
  pose proof (Z.mod_pos_bound n 65536 eq_refl) as Hm.
  destruct (32768 <=? n mod 65536)%Z eqn:E.
  - apply Z.leb_le in E. lia.
  - apply Z.leb_gt in E. lia.
Qed.

Lemma int16_of_Z_small (n : Z) :
  (-32768 <= n < 32768)%Z -> int16_of_Z n = n.
Proof.
  intros Hn. unfold int16_of_Z.
  destruct (Z.neg_nonneg_cases n) as [Hneg | Hpos].
  - replace (n mod 65536)%Z with (n + 65536)%Z.
    + destruct (32768 <=? n + 65536)%Z eqn:E.
      * lia.
      * apply Z.leb_gt in E. lia.
    + apply Z.mod_unique with (q := (-1)%Z); lia.
  - rewrite Z.mod_small by lia.
    destruct (32768 <=? n)%Z eqn:E; [apply Z.leb_le in E; lia | reflexivity].
Qed.

Lemma int16_bytes_recombine (v : Z) :
  (-32768 <= v < 32768)%Z ->
  int16_of_Z (v mod 256 + 256 * ((v / 256) mod 256)) = v.
Proof.
  intros Hv.
  replace (v mod 256 + 256 * ((v / 256) mod 256))%Z with (v mod 65536)%Z.
  - unfold int16_of_Z. rewrite Z.mod_mod by lia.
    fold (int16_of_Z v). now apply int16_of_Z_small.
  - change 65536%Z with (256 * 256)%Z. rewrite Z.rem_mul_r by lia. reflexivity.
Qed.

Lemma Int16Array_view_roundtrip (xs : list Z) :
  Forall (fun v => (-32768 <= v < 32768)%Z) xs ->
  Int16Array_of_bytes (Uint8Array_of_Int16Array xs) = Normal xs.
Proof.
  induction 1 as [| v xs Hv _ IH]; [reflexivity |].
  cbn [Uint8Array_of_Int16Array flat_map app Int16Array_of_bytes].
  fold (Uint8Array_of_Int16Array xs). rewrite IH.
  now rewrite int16_bytes_recombine.
Qed.

Lemma truncate_times32768 (n : Z) (d : positive) :
  truncate ((n # d) * 32768)%Q = Z.quot (n * 32768) (Zpos d).
Proof. unfold truncate. cbn [Qmult Qnum Qden]. now rewrite Pos.mul_1_r. Qed.

Lemma quot_bracket (a : Z) (d : positive) :
  let t := Z.quot a (Zpos d) in
  a - Zpos d < Zpos d * t < a + Zpos d.
Proof.
  cbn zeta.
  pose proof (Z.quot_rem' a (Zpos d)) as E.
  pose proof (Z.rem_bound_abs a (Zpos d) ltac:(lia)) as B.
  lia.
Qed.

Lemma truncate_scaled_range (x : Q) :
  (-1 <= x)%Q -> (x < 1)%Q -> -32768 <= truncate (x * 32768) < 32768.
Proof.
  destruct x as [n d]. unfold Qle, Qlt. cbn [Qnum Qden]. intros Hlo Hhi.
  rewrite truncate_times32768.
  pose proof (Z.quot_rem' (n * 32768) (Zpos d)) as E.
  pose proof (Z.rem_bound_abs (n * 32768) (Zpos d) ltac:(lia)) as A.
  set (t := Z.quot (n * 32768) (Zpos d)) in *.
  set (r := Z.rem (n * 32768) (Zpos d)) in *.
  assert (Hsign : n < 0 /\ r <= 0 \/ 0 <= n /\ 0 <= r).
  { destruct (Z.neg_nonneg_cases n) as [Hn | Hn]; [left | right]; split; trivial.
    - apply Z.rem_nonpos; lia.
    - apply Z.rem_nonneg; lia. }
  split.
  - apply (Z.mul_le_mono_pos_l _ _ (Zpos d)); lia.
  - apply (Z.mul_lt_mono_pos_l (Zpos d)); lia.
Qed.

(** The truncated scaled value fits 16 bits exactly when the sample lies
    strictly between -(1 + 1/32768) and 1. *)
Lemma truncate_scaled_fits (x : Q) :
  -32768 <= truncate (x * 32768) < 32768
  <-> (- (32769 # 32768) < x /\ x < 1)%Q.
Proof.
  destruct x as [n d]. unfold Qlt. cbn [Qnum Qden Qopp].
  rewrite truncate_times32768.
  pose proof (Z.quot_rem' (n * 32768) (Zpos d)) as E.
  pose proof (Z.rem_bound_abs (n * 32768) (Zpos d) ltac:(lia)) as A.
  set (t := Z.quot (n * 32768) (Zpos d)) in *.
  set (r := Z.rem (n * 32768) (Zpos d)) in *.
  assert (Hsign : n < 0 /\ r <= 0 \/ 0 <= n /\ 0 <= r).
  { destruct (Z.neg_nonneg_cases n) as [Hn | Hn]; [left | right]; split; trivial.
    - apply Z.rem_nonpos; lia.
    - apply Z.rem_nonneg; lia. }
  split.
  - intros [Hlo Hhi].
    assert (H1 : Zpos d * -32768 <= Zpos d * t)
      by (apply Z.mul_le_mono_pos_l; lia).
    assert (H2 : Zpos d * t <= Zpos d * 32767)
      by (apply Z.mul_le_mono_pos_l; lia).
    lia.
  - intros [Hlo Hhi].
    assert (H1 : -32769 < t) by (apply (Z.mul_lt_mono_pos_l (Zpos d)); lia).
    assert (H2 : t < 32768) by (apply (Z.mul_lt_mono_pos_l (Zpos d)); lia).
    lia.
Qed.

Lemma truncate_scaled_error (x : Q) :
  (Qabs (Qmake (truncate (x * 32768)) 32768 - x) < 1 # 32768)%Q.
Proof.
  destruct x as [n d]. rewrite truncate_times32768.
  pose proof (quot_bracket (n * 32768) d) as B. cbn zeta in B.
  apply Qabs_Qlt_condition. split; unfold Qlt, Qminus, Qplus, Qopp; cbn [Qnum Qden].
  - rewrite ?Pos2Z.inj_mul. nia.
  - rewrite ?Pos2Z.inj_mul. nia.
Qed.

Lemma ToInt16_range (x : number) : -32768 <= ToInt16 x < 32768.
Proof. destruct x; cbn; try lia. apply int16_of_Z_range. Qed.

Lemma int16_samples_range (samples : list number) :
  Forall (fun v => -32768 <= v < 32768) (int16_samples samples).
Proof.
  unfold int16_samples. apply Forall_map, Forall_forall.
  intros x _. apply ToInt16_range.
Qed.

Lemma int16_of_Z_congr (n : Z) : (int16_of_Z n - n) mod 65536 = 0.
Proof.
  unfold int16_of_Z.
  pose proof (Z.div_mod n 65536 ltac:(lia)) as E.
  destruct (32768 <=? n mod 65536).
  - replace (n mod 65536 - 65536 - n) with ((-1 - n / 65536) * 65536) by lia.
    apply Z.mod_mul; lia.
  - replace (n mod 65536 - n) with ((- (n / 65536)) * 65536) by lia.
    apply Z.mod_mul; lia.
Qed.

Lemma nth_error_channelData_mono (d16 : list Z) (n i : nat) :
  (i < n)%nat ->
  nth_error (channelData d16 1 n 0) i = Some (Qmake (nth i d16 0) 32768).
Proof.
  intros Hi. unfold channelData.
  rewrite nth_error_map, nth_error_seq.
  apply Nat.ltb_lt in Hi. rewrite Hi. cbn [option_map].
  now rewrite Nat.add_0_l, Nat.mul_1_r, Nat.add_0_r.
Qed.

Lemma roundtrip_buffer (samples : list number) :
  samples <> [] ->
  roundtrip samples =
    Normal {| numberOfChannels := 1;
              length := List.length samples;
              sampleRate := 24000;
              channels := [channelData (int16_samples samples) 1
                                       (List.length samples) 0] |}.
Proof.
  intros Hne. unfold roundtrip, decodePCMAudioData, createBlob.
  cbn [Genai.payload Genai.data].
  rewrite Int16Array_view_roundtrip by apply int16_samples_range.
  cbv zeta. rewrite (length_map _ samples : List.length (int16_samples samples) = _).
  rewrite Nat.div_1_r.
  destruct samples as [| s rest]; [contradiction | reflexivity].
Qed.

End CodecFacts.

Module CodecClaims.
Import Codec CodecFacts Fidelity.
Local Open Scope Z_scope.

(** C2, as the code has it. For every sample of a buffer that is finite
    and lies in the half-open interval [-1, 1), encoding the buffer with
    the capture encoder and decoding it with the playback decoder gives
    back, at the same index, a value less than 1/32768 away. *)
Theorem pcm_roundtrip_half_open (samples : list number) (i : nat) (x : Q) :
  nth_error samples i = Some (Fin x) ->
  (-1 <= x)%Q -> (x < 1)%Q ->
  exists buf ch y,
    roundtrip samples = Normal buf
    /\ channels buf = [ch]
    /\ List.length ch = List.length samples
    /\ nth_error ch i = Some y
    /\ (Qabs (y - x) < 1 # 32768)%Q.
Proof.
  intros Hi Hlo Hhi.
  assert (Hne : samples <> []) by (intros ->; destruct i; discriminate).
  assert (Hlt : (i < List.length samples)%nat)
    by (apply nth_error_Some; congruence).
  eexists _, _, _. split; [apply (roundtrip_buffer _ Hne) |].
  cbn [channels]. split; [reflexivity |]. split.
  { unfold channelData. now rewrite length_map, length_seq. }
  split; [apply nth_error_channelData_mono, Hlt |].
  unfold int16_samples.
  rewrite (nth_error_nth _ _ 0 (map_nth_error _ _ _ Hi)).
  cbn [times32768 ToInt16].
  rewrite int16_of_Z_small by now apply truncate_scaled_range.
  apply truncate_scaled_error.
Qed.

Lemma pcm_roundtrip_third :
  exists buf ch y,
    roundtrip [Fin (1 # 3); Fin (-1)] = Normal buf
    /\ channels buf = [ch]
    /\ List.length ch = 2%nat
    /\ nth_error ch 0 = Some y
    /\ (Qabs (y - (1 # 3)) < 1 # 32768)%Q.
Proof.
  apply (pcm_roundtrip_half_open [Fin (1 # 3); Fin (-1)] 0 (1 # 3));
    [reflexivity | discriminate | reflexivity].
Defined.

(** C2 as stated fails at the upper end of the interval: the sample 1
    is stored as -32768 and comes back as -1. *)
Lemma pcm_roundtrip_fails_at_one :
  Forall in_unit_interval [Fin 1] /\ ~ roundtrip_within_lsb [Fin 1].
Proof.
  split.
  - constructor; [| constructor].
    exists 1%Q. repeat split; discriminate.
  - intros H. destruct (H 0%nat 1%Q eq_refl) as (buf & ch & y & Hr & Hch & Hy & Habs).
    vm_compute in Hr. injection Hr as <-.
    cbn in Hch. injection Hch as <-.
    cbn in Hy. injection Hy as <-.
    vm_compute in Habs. now apply Habs.
Qed.

(** C3, as the code has it. The capture conversion does not clamp: a
    finite sample is scaled by 32768, truncated toward zero and reduced
    modulo 2^16 into the signed 16-bit range.  The stored value is the
    truncated scaled value itself exactly when the sample lies strictly
    between -(1 + 1/32768) and 1; for every other finite sample it
    differs from it by a multiple of 65536 that is not zero. *)
Theorem createBlob_scales_and_wraps (samples : list number) (i : nat) (x : Q) :
  nth_error samples i = Some (Fin x) ->
  exists v,
    nth_error (int16_samples samples) i = Some v
    /\ -32768 <= v < 32768
    /\ (v - truncate (x * 32768)) mod 65536 = 0
    /\ (v = truncate (x * 32768) <-> (- (32769 # 32768) < x /\ x < 1)%Q).
Proof.
  intros Hi. exists (ToInt16 (times32768 (Fin x))).
  split; [exact (map_nth_error (fun s => ToInt16 (times32768 s)) _ _ Hi) |].
  split; [apply ToInt16_range |].
  cbn [times32768 ToInt16].
  split; [apply int16_of_Z_congr |].
  rewrite <- truncate_scaled_fits. split.
  - intros <-. apply int16_of_Z_range.
  - apply int16_of_Z_small.
Qed.

(** At 1/2 the stored value is 16384, unwrapped; just below -1, at
    -(1 + 2^-23), it is -32768, unwrapped as well. *)
Lemma createBlob_half_scale :
  (exists v, nth_error (int16_samples [Fin (1 # 2)]) 0 = Some v /\ v = 16384)
  /\ (exists v, nth_error (int16_samples [Fin (- (8388609 # 8388608))]) 0 = Some v
                /\ v = -32768).
Proof.
  split.
  - destruct (createBlob_scales_and_wraps [Fin (1 # 2)] 0 (1 # 2) eq_refl)
      as (v & Hv & _ & _ & Hin).
    exists v. split; [exact Hv |].
    rewrite (proj2 Hin); [reflexivity | split; reflexivity].
  - destruct (createBlob_scales_and_wraps [Fin (- (8388609 # 8388608))] 0
                (- (8388609 # 8388608)) eq_refl)
      as (v & Hv & _ & _ & Hin).
    exists v. split; [exact Hv |].
    rewrite (proj2 Hin); [reflexivity | split; reflexivity].
Defined.

(** C3 as stated fails: samples at and above 1 are stored as negative
    values, and a sample below -1 as a positive one. *)
Lemma createBlob_wraps_out_of_range :
  ~ clamps 1 /\ ~ clamps (3 # 2) /\ ~ clamps (- (3 # 2))
  /\ int16_samples [Fin 1; Fin (3 # 2); Fin (- (3 # 2))] = [-32768; -16384; 16384].
Proof.
  repeat split.
  - intros [H _]. specialize (H ltac:(discriminate)). vm_compute in H. discriminate.
  - intros [H _]. specialize (H ltac:(discriminate)). vm_compute in H. discriminate.
  - intros [_ H]. specialize (H ltac:(discriminate)). vm_compute in H. discriminate.
Qed.

End CodecClaims.

Module LiveChatFacts.
Import LiveChat Teardown.

Lemma forEach_call {A : Type} (f : A -> Effect) (l : list A) (c : Component) :
  forEach l (fun x c' => (Normal tt, c', [f x])) c = (Normal tt, c, map f l).
Proof.
  induction l as [| x l IH]; [reflexivity |].
  cbn [forEach map]. unfold bind. now rewrite IH.
Qed.

Ltac run := unfold bind, get, modify, call, ret, lift; cbn.

Lemma cleanup_eq (c : Component) :
  cleanup c =
    (Normal tt, cleaned c,
     (closeRequest c ++ captureStop c ++ outputRelease c)%list).
Proof.
  destruct c as [st hist cu cm p ictx octx mic sp sn srcs next ur mr].
  unfold cleanup, cleaned, closeRequest, captureStop, outputRelease. run.
  destruct p, sp, sn, mic, ictx as [[]|], octx as [[]|]; cbn;
    rewrite ?forEach_call; cbn; rewrite ?forEach_call; cbn;
    rewrite ?app_nil_r, <- ?app_assoc; reflexivity.
Qed.
End LiveChatFacts.


Module MessageFacts.
Import LiveChat Playback.
Local Open Scope prog_scope.

Lemma bind_run {A B : Type} (m : Prog A) (k : A -> Prog B)
      (c c1 : Component) (a : A) (log1 : list Effect) :
  m c = (Normal a, c1, log1) ->
  bind m k c = (result (k a c1), after (k a c1), log1 ++ calls (k a c1)).
Proof.
  intros Hm. unfold bind. rewrite Hm.
  now destruct (k a c1) as [[r c2] log2].
Qed.

Lemma accumulate_run (message : Genai.LiveServerMessage) (c : Component) :
  accumulate message c = (Normal tt, after (accumulate message c), []).
Proof.
  destruct message as [[[[tr|] [tr'|] tc mt]|]]; reflexivity.
Qed.

Lemma finalizeTurn_run (message : Genai.LiveServerMessage) (c : Component) :
  finalizeTurn message c = (Normal tt, after (finalizeTurn message c), []).
Proof.
  unfold finalizeTurn. destruct (turnCompleted message); reflexivity.
Qed.

Lemma onMessage_eq (message : Genai.LiveServerMessage) (now : Double.double) (c : Component) :
  onMessage message now c =
    playAudio message now (after (finalizeTurn message (after (accumulate message c)))).
Proof.
  unfold onMessage.
  rewrite (bind_run _ _ _ _ _ _ (accumulate_run message c)).
  rewrite (bind_run _ _ _ _ _ _ (finalizeTurn_run message _)).
  cbn [app]. unfold result, after, calls.
  now destruct (playAudio message now _) as [[r c2] log2].
Qed.

Lemma schedule_eq (bytes : list Z) (now : Double.double) (c : Component) :
  schedule bytes now c =
    match Codec.decodePCMAudioData bytes 24000 1 with
    | Normal b => (Normal tt, enqueued c now b, [source_start (segment c now b)])
    | Throw e =>
        (Throw e,
         set_nextAudioStartTime (Double.max (nextAudioStartTime c) now) c, [])
    end.
Proof.
  unfold schedule, bind, lift, modify, get, call.
  destruct (Codec.decodePCMAudioData bytes 24000 1) as [b | e]; [| reflexivity].
  destruct c; reflexivity.
Qed.

Lemma playAudio_outcome (message : Genai.LiveServerMessage) (now : Double.double) (c : Component) :
  PlayOutcome c now (playAudio message now c).
Proof.
  unfold playAudio, bind, lift, get.
  destruct message as [[[ot it tc [[[[| [[blob |]] ps] |]] |]] |]];
    cbn -[schedule]; try constructor.
  destruct blob as [[[| b bytes] |] mt]; cbn -[schedule]; try constructor.
  destruct (outputAudioContextRef c); cbn -[schedule]; try constructor.
  rewrite schedule_eq.
  destruct (Codec.decodePCMAudioData (b :: bytes) 24000 1) as [buf | e] eqn:E;
    cbn; [now apply play_segment with (b :: bytes) | constructor].
Qed.

Lemma accumulate_frame (message : Genai.LiveServerMessage) (c : Component) :
  let c1 := after (accumulate message c) in
  nextAudioStartTime c1 = nextAudioStartTime c
  /\ transcriptionHistory c1 = transcriptionHistory c
  /\ outputAudioSources c1 = outputAudioSources c.
Proof.
  destruct message as [[[[tr|] [tr'|] tc mt]|]]; destruct c; repeat split.
Qed.

Lemma finalizeTurn_frame (message : Genai.LiveServerMessage) (c : Component) :
  let c1 := after (finalizeTurn message c) in
  nextAudioStartTime c1 = nextAudioStartTime c
  /\ outputAudioSources c1 = outputAudioSources c.
Proof.
  unfold finalizeTurn.
  destruct (turnCompleted message); destruct c; repeat split.
Qed.

Lemma gapless_weaken (m m' : Double.double) (l : list AudioBufferSourceNode) :
  Double.leb m' m = true -> gapless m l -> gapless m' l.
Proof.
  destruct l as [| s rest]; [trivial |].
  cbn. intros Hle [Hs Hrest]. split; [| exact Hrest].
  now apply DoubleFacts.leb_trans with m.
Qed.

(** [gapless], read index by index. *)
Lemma gapless_consecutive (l : list AudioBufferSourceNode) :
  forall (marker : Double.double) (i : nat) (s t : AudioBufferSourceNode),
    gapless marker l ->
    nth_error l i = Some s ->
    nth_error l (S i) = Some t ->
    Double.leb (sourceEnd s) (when t) = true.
Proof.
  induction l as [| x rest IH]; intros marker i s t Hg Hs Ht.
  - destruct i; discriminate.
  - destruct Hg as [_ Hrest]. destruct i as [| i].
    + injection Hs as <-. destruct rest as [| y rest']; [discriminate |].
      injection Ht as <-. exact (proj1 Hrest).
    + exact (IH _ i s t Hrest Hs Ht).
Qed.

Lemma decodePCMAudioData_rate (bytes : list Z) (rate : positive) (n : nat)
      (b : Codec.AudioBuffer) :
  Codec.decodePCMAudioData bytes rate n = Normal b -> Codec.sampleRate b = rate.
Proof.
  unfold Codec.decodePCMAudioData.
  destruct (Codec.Int16Array_of_bytes bytes) as [xs | e]; [| discriminate].
  destruct (_ || _)%bool; [discriminate |].
  now intros [= <-].
Qed.

(** The duration of a segment decoded at 24000 Hz is not negative. *)
Lemma duration_nonneg (bytes : list Z) (b : Codec.AudioBuffer) :
  Codec.decodePCMAudioData bytes 24000 1 = Normal b ->
  Double.nonneg (Codec.duration b) = true.
Proof.
  intros H. unfold Codec.duration.
  rewrite (decodePCMAudioData_rate _ _ _ _ H).
  change (Double.of_Z 24000) with (S754_finite false 6597069766656000 (-38)).
  apply DoubleFacts.nonneg_div, DoubleFacts.nonneg_of_Z, Nat2Z.is_nonneg.
Qed.

Lemma started_app (l1 l2 : list Effect) :
  started (l1 ++ l2) = started l1 ++ started l2.
Proof. apply flat_map_app. Qed.

Lemma deliver_gapless (messages : list (Genai.LiveServerMessage * Double.double)) :
  forall c,
    Double.nonneg (nextAudioStartTime c) = true ->
    Forall (fun m => Double.nonneg (snd m) = true) messages ->
    gapless (nextAudioStartTime c) (started (snd (deliver messages c))).
Proof.
  induction messages as [| [message now] rest IH]; intros c Hc Hall; [exact I |].
  apply Forall_cons_iff in Hall as [Hnow Hrest]. cbn [snd] in Hnow.
  cbn [deliver]. rewrite onMessage_eq.
  pose proof (accumulate_frame message c) as [Ha _].
  pose proof (finalizeTurn_frame message (after (accumulate message c))) as [Hf _].
  set (c2 := after (finalizeTurn message (after (accumulate message c)))) in *.
  assert (Hc2 : nextAudioStartTime c2 = nextAudioStartTime c) by congruence.
  clearbody c2. rewrite <- Hc2 in *. clear Ha Hf Hc2.
  assert (Hmax : Double.nonneg (Double.max (nextAudioStartTime c2) now) = true)
    by now apply DoubleFacts.nonneg_max.
  assert (Hle : Double.leb (nextAudioStartTime c2)
                           (Double.max (nextAudioStartTime c2) now) = true)
    by (apply DoubleFacts.leb_max_l; now apply DoubleFacts.nonneg_not_nan).
  destruct (playAudio_outcome message now c2) as [ | | e | bytes b Hb].
  - specialize (IH c2 Hc Hrest). destruct (deliver rest c2) as [c3 log]. exact IH.
  - specialize (IH c2 Hc Hrest). destruct (deliver rest c2) as [c3 log]. exact IH.
  - specialize (IH (set_nextAudioStartTime (Double.max (nextAudioStartTime c2) now) c2)).
    destruct (deliver rest _) as [c3 log]. cbn [snd app] in *.
    eapply gapless_weaken; [exact Hle |].
    destruct c2; cbn in *. now apply IH.
  - specialize (IH (enqueued c2 now b)).
    destruct (deliver rest _) as [c3 log]. cbn [snd app started flat_map] in *.
    split; [exact Hle |].
    destruct c2; cbn in *. apply IH; [| exact Hrest].
    apply DoubleFacts.nonneg_add; [exact Hmax | exact (duration_nonneg _ _ Hb)].
Qed.
End MessageFacts.


Module PlaybackClaims.
Import LiveChat Playback MessageFacts Scenario.

(** C1. Each scheduled segment starts at the maximum of the end marker
    and the output clock, is started at that offset, and moves the end
    marker to that offset plus the segment's duration, all in binary64
    arithmetic as the code computes them; over any stream of messages
    read at clock values that are neither NaN nor negative, from a
    marker that is neither, every started segment begins at or after the
    computed end of the one before it (and the first at or after the
    marker the stream found): segment i+1 never starts before segment i
    ends. *)
Theorem playback_back_to_back :
  (forall (bytes : list Z) (now : Double.double) (c : Component),
      let r := schedule bytes now c in
      match Codec.decodePCMAudioData bytes 24000 1 with
      | Normal b =>
          let source :=
            {| buffer := b; when := Double.max (nextAudioStartTime c) now |} in
          result r = Normal tt
          /\ calls r = [source_start source]
          /\ nextAudioStartTime (after r)
             = Double.add (Double.max (nextAudioStartTime c) now) (Codec.duration b)
          /\ outputAudioSources (after r) = outputAudioSources c ++ [source]
      | Throw e => result r = Throw e /\ calls r = []
      end)
  /\ (forall (messages : list (Genai.LiveServerMessage * Double.double))
             (c : Component),
        Double.nonneg (nextAudioStartTime c) = true ->
        Forall (fun m => Double.nonneg (snd m) = true) messages ->
        gapless (nextAudioStartTime c) (started (snd (deliver messages c))))
  /\ (forall (messages : list (Genai.LiveServerMessage * Double.double))
             (c : Component) (i : nat) (s t : AudioBufferSourceNode),
        Double.nonneg (nextAudioStartTime c) = true ->
        Forall (fun m => Double.nonneg (snd m) = true) messages ->
        nth_error (started (snd (deliver messages c))) i = Some s ->
        nth_error (started (snd (deliver messages c))) (S i) = Some t ->
        Double.leb (Double.add (when s) (Codec.duration (buffer s))) (when t)
        = true).
Proof.
  split; [| split].
  - intros bytes now c r. subst r. rewrite schedule_eq.
    destruct (Codec.decodePCMAudioData bytes 24000 1) as [b | e].
    + destruct c; repeat split.
    + now split.
  - intros messages c. apply deliver_gapless.
  - intros messages c i s t Hc Hall Hs Ht.
    exact (gapless_consecutive _ _ i s t (deliver_gapless messages c Hc Hall) Hs Ht).
Qed.

(** Two segments arriving faster than real time, the first read at clock
    0.5 and the second at clock 0: the second is queued behind the first,
    at the binary64 sum of 0.5 and the first segment's duration 2/24000. *)
Lemma playback_two_segments :
  let half := S754_finite false 4503599627370496 (-53) in
  let second := S754_finite false 4504350227308391 (-53) in
  let messages := [ (audioMessage [0; 0; 1; 0]%Z, half);
                    (audioMessage [0; 0]%Z, Double.zero) ] in
  let log := snd (deliver messages live) in
  Double.nonneg (nextAudioStartTime live) = true
  /\ Forall (fun m => Double.nonneg (snd m) = true) messages
  /\ map when (started log) = [half; second]
  /\ Double.leb (Double.add half (Double.div (Double.of_Z 2) (Double.of_Z 24000)))
                second = true.
Proof.
  cbv zeta. split; [reflexivity |]. split; [repeat constructor |].
  split; [reflexivity |].
  apply (proj2 (proj2 playback_back_to_back)
           [ (audioMessage [0; 0; 1; 0]%Z, S754_finite false 4503599627370496 (-53));
             (audioMessage [0; 0]%Z, Double.zero) ]
           live 0%nat
           {| buffer := {| Codec.numberOfChannels := 1; Codec.length := 2;
                           Codec.sampleRate := 24000;
                           Codec.channels := [[0 # 32768; 1 # 32768]] |};
              when := S754_finite false 4503599627370496 (-53) |}
           {| buffer := {| Codec.numberOfChannels := 1; Codec.length := 1;
                           Codec.sampleRate := 24000;
                           Codec.channels := [[0 # 32768]] |};
              when := S754_finite false 4504350227308391 (-53) |});
    [reflexivity | repeat constructor | reflexivity | reflexivity].
Defined.

End PlaybackClaims.

Module TranscriptClaims.
Import LiveChat Playback MessageFacts Transcript Scenario.
Local Open Scope string_scope.

Lemma playAudio_keeps_transcripts (message : Genai.LiveServerMessage) (now : Double.double)
      (c : Component) :
  let c1 := after (playAudio message now c) in
  transcriptionHistory c1 = transcriptionHistory c
  /\ userTranscriptRef c1 = userTranscriptRef c
  /\ modelTranscriptRef c1 = modelTranscriptRef c
  /\ currentUserTranscription c1 = currentUserTranscription c
  /\ currentModelTranscription c1 = currentModelTranscription c.
Proof.
  destruct (playAudio_outcome message now c); destruct c; repeat split.
Qed.

(** C7, as the code has it. On a turn-complete event the handler appends
    exactly two entries, the user buffer's then the model buffer's,
    whether or not a buffer is empty, and clears both buffers and both
    live transcriptions. *)
Theorem turn_complete_appends_both
        (message : Genai.LiveServerMessage) (now : Double.double) (c : Component) :
  turnCompleted message = true ->
  let c1 := after (accumulate message c) in
  let c2 := after (onMessage message now c) in
  transcriptionHistory c2
    = (transcriptionHistory c
       ++ both_entries (userTranscriptRef c1) (modelTranscriptRef c1))%list
  /\ userTranscriptRef c2 = ""
  /\ modelTranscriptRef c2 = ""
  /\ currentUserTranscription c2 = ""
  /\ currentModelTranscription c2 = "".
Proof.
  intros Hturn c1 c2. subst c1 c2. rewrite onMessage_eq.
  destruct (playAudio_keeps_transcripts message now
              (after (finalizeTurn message (after (accumulate message c)))))
    as (-> & -> & -> & -> & ->).
  destruct (accumulate_frame message c) as (_ & Hhist & _).
  unfold finalizeTurn. rewrite Hturn.
  destruct (after (accumulate message c)) as [st hist cu cm p ic oc mic sp sn srcs nx ur mr].
  cbn in *. subst hist. repeat split.
Qed.

Lemma turn_complete_hello_hi_there :
  let c2 := after (onMessage turnCompleteMessage Double.zero
                     (withBuffers "hello" "hi there" live)) in
  transcriptionHistory c2
    = [ {| speaker := user; text := "hello" |};
        {| speaker := model; text := "hi there" |} ]
  /\ userTranscriptRef c2 = ""
  /\ modelTranscriptRef c2 = ""
  /\ currentUserTranscription c2 = ""
  /\ currentModelTranscription c2 = "".
Proof.
  exact (turn_complete_appends_both turnCompleteMessage Double.zero
           (withBuffers "hello" "hi there" live) eq_refl).
Defined.

(** C7 as stated fails: with an empty user buffer the handler still
    appends a user entry, where the stated rule appends only the
    model's. *)
Lemma turn_complete_keeps_empty_entry :
  let c := withBuffers "" "hi there" live in
  transcriptionHistory (after (onMessage turnCompleteMessage Double.zero c))
    <> (transcriptionHistory c
        ++ nonempty_entries (userTranscriptRef c) (modelTranscriptRef c))%list.
Proof. cbv. discriminate. Qed.

End TranscriptClaims.

Module MessageClaims.
Import LiveChat Playback MessageFacts Shape Scenario.
Local Open Scope prog_scope.

(** C10. The audio step of the handler is partial. A message with no
    [serverContent], no [modelTurn] or an empty [parts] list is handled
    exactly as its transcription and turn-complete blocks alone would,
    completes normally and starts no source; a message whose model turn
    has a first part without [inlineData] makes the handler throw
    TypeError. *)
Theorem audio_step_partial
        (message : Genai.LiveServerMessage) (now : Double.double) (c : Component) :
  (noAudioPart message = true ->
     onMessage message now c = (accumulate message ;; finalizeTurn message) c
     /\ result (onMessage message now c) = Normal tt
     /\ started (calls (onMessage message now c)) = [])
  /\ (firstPartLacksInlineData message = true ->
        result (onMessage message now c) = Throw TypeError).
Proof.
  split; intros Hshape.
  - assert (Hplay : forall c', playAudio message now c' = (Normal tt, c', [])).
    { intros c'. unfold playAudio, bind, lift, get.
      destruct message as [[[ot it tc [[[[| part ps] |]] |]] |]];
        try discriminate; reflexivity. }
    assert (Hseq : (accumulate message ;; finalizeTurn message) c
                   = (Normal tt,
                      after (finalizeTurn message (after (accumulate message c))), [])).
    { rewrite (bind_run _ _ _ _ _ _ (accumulate_run message c)).
      now rewrite finalizeTurn_run. }
    rewrite onMessage_eq, Hplay, Hseq. repeat split.
  - rewrite onMessage_eq. unfold playAudio, bind, lift, get.
    destruct message as [[[ot it tc [[[[| [[blob |]] ps] |]] |]] |]];
      try discriminate; reflexivity.
Qed.

Lemma audio_step_partial_cases :
  (onMessage turnCompleteMessage Double.zero live
     = (accumulate turnCompleteMessage ;; finalizeTurn turnCompleteMessage) live
   /\ result (onMessage turnCompleteMessage Double.zero live) = Normal tt
   /\ started (calls (onMessage turnCompleteMessage Double.zero live)) = [])
  /\ result (onMessage textPartMessage Double.zero live) = Throw TypeError.
Proof.
  split.
  - apply (audio_step_partial turnCompleteMessage Double.zero live). reflexivity.
  - apply (audio_step_partial textPartMessage Double.zero live). reflexivity.
Defined.

End MessageClaims.

Module TeardownFacts.
Import LiveChat Teardown LiveChatFacts.



Lemma nondecreasing_from_weaken (lo k : nat) (l : list nat) :
  (lo <= k)%nat -> nondecreasing_from k l = true -> nondecreasing_from lo l = true.
Proof.
  destruct l as [| x rest]; [trivial |].
  cbn. intros Hle H. apply andb_true_iff in H as [Hx Hrest].
  apply Nat.leb_le in Hx.
  apply andb_true_iff. split; [apply Nat.leb_le; lia | exact Hrest].
Qed.

(** A block of equal ranks in front of an ordered tail. *)
Lemma nondecreasing_from_block (k : nat) (l1 l2 : list nat) :
  forall lo,
    (lo <= k)%nat ->
    Forall (eq k) l1 ->
    nondecreasing_from k l2 = true ->
    nondecreasing_from lo (l1 ++ l2) = true.
Proof.
  induction l1 as [| x l1 IH]; intros lo Hle Hall Htail.
  - now apply nondecreasing_from_weaken with k.
  - inversion Hall as [| ? ? Hx Hrest]; subst.
    cbn. apply andb_true_iff. split; [now apply Nat.leb_le |].
    apply IH; auto.
Qed.

Lemma ranks_app (l1 l2 : list Effect) : ranks (l1 ++ l2) = (ranks l1 ++ ranks l2)%list.
Proof. unfold ranks, steps. now rewrite flat_map_app, map_app. Qed.

Lemma ranks_closeRequest (c : Component) : Forall (eq 0%nat) (ranks (closeRequest c)).
Proof.
  unfold closeRequest. destruct (sessionPromiseRef c); cbn; repeat constructor.
Qed.

Lemma ranks_track_stop (tracks : list nat) :
  Forall (eq 1%nat) (ranks (map track_stop tracks)).
Proof. induction tracks; cbn; [constructor | now constructor]. Qed.

Lemma ranks_source_stop (sources : list AudioBufferSourceNode) :
  Forall (eq 2%nat) (ranks (map source_stop sources)).
Proof. induction sources; cbn; [constructor | now constructor]. Qed.

Lemma ranks_captureStop (c : Component) : Forall (eq 1%nat) (ranks (captureStop c)).
Proof.
  unfold captureStop. rewrite !ranks_app, !Forall_app. repeat split.
  - destruct (scriptProcessorRef c); cbn; repeat constructor.
  - destruct (sourceNodeRef c); cbn; repeat constructor.
  - destruct (microphoneStreamRef c); cbn; [apply ranks_track_stop | constructor].
  - destruct (inputAudioContextRef c) as [[]|]; cbn; repeat constructor.
Qed.

Lemma ranks_outputRelease (c : Component) : Forall (eq 2%nat) (ranks (outputRelease c)).
Proof.
  unfold outputRelease. rewrite ranks_app, Forall_app. split.
  - destruct (outputAudioContextRef c) as [[]|]; cbn; repeat constructor.
  - apply ranks_source_stop.
Qed.

Lemma reaction_track_stop (tracks : list nat) :
  flat_map reaction (map track_stop tracks) = [].
Proof. induction tracks; cbn; auto. Qed.

Lemma reaction_source_stop (sources : list AudioBufferSourceNode) :
  flat_map reaction (map source_stop sources) = [].
Proof. induction sources; cbn; auto. Qed.

Lemma reaction_captureStop (c : Component) : flat_map reaction (captureStop c) = [].
Proof.
  unfold captureStop. rewrite !flat_map_app.
  destruct (scriptProcessorRef c), (sourceNodeRef c), (microphoneStreamRef c),
    (inputAudioContextRef c) as [[]|]; cbn; rewrite ?reaction_track_stop; reflexivity.
Qed.

Lemma reaction_outputRelease (c : Component) : flat_map reaction (outputRelease c) = [].
Proof.
  unfold outputRelease. rewrite flat_map_app, reaction_source_stop.
  destruct (outputAudioContextRef c) as [[]|]; reflexivity.
Qed.

Lemma ranks_reaction_closeRequest (c : Component) :
  Forall (eq 3%nat) (ranks (flat_map reaction (closeRequest c))).
Proof.
  unfold closeRequest. destruct (sessionPromiseRef c) as [[]|]; cbn; repeat constructor.
Qed.

End TeardownFacts.

Module SessionClaims.
Import Constants LiveChat Teardown LiveChatFacts TeardownFacts Scenario.
Local Open Scope string_scope.


(** C4, at the failing input and beyond: after [onError] the state is
    idle, not error, for every component state; the teardown is that of
    [cleanup], and [onClose] is [cleanup]. *)
Theorem onError_ends_idle (c : Component) :
  sessionState (after (onError c)) = idle
  /\ after (onError c) = after (cleanup c)
  /\ calls (onError c) = console_error :: calls (cleanup c)
  /\ onClose c = cleanup c.
Proof.
  assert (H : onError c = (Normal tt, cleaned c, console_error :: calls (cleanup c))).
  { unfold onError, bind, call, modify.
    rewrite !cleanup_eq. unfold calls. cbn [snd app].
    destruct c; reflexivity. }
  rewrite H, cleanup_eq. repeat split.
  unfold onClose. apply cleanup_eq.
Qed.

(** C6, as the code has it. Called while the state is neither idle nor
    error, [handleConnect] returns normally, with no rejection, makes no
    call and leaves the whole component as it was. *)
Theorem handleConnect_busy_noop
        (agent : Agent) (media : Completion MediaStream) (c : Component) :
  sessionState c <> idle ->
  sessionState c <> error ->
  handleConnect agent media c = (Normal tt, c, []).
Proof.
  intros Hidle Herror. unfold handleConnect, bind, get.
  destruct (sessionState c); try contradiction; reflexivity.
Qed.

Lemma handleConnect_connected_noop :
  handleConnect general (Normal [0%nat]) live = (Normal tt, live, []).
Proof.
  apply handleConnect_busy_noop; discriminate.
Defined.

(** C6 as stated fails: a start during an open session is not rejected. *)
Lemma handleConnect_connected_not_rejected :
  sessionState live = connected
  /\ ~ rejects_with_InvalidState general (Normal [0%nat]) live.
Proof. split; [reflexivity | discriminate]. Qed.

(** C8, as the code has it. In every teardown the close of the session
    is requested first, capture is stopped next, the output resources
    are released after that, and the call closing the session runs
    last, once the synchronous part is over. *)
Theorem teardown_order (c : Component) :
  in_order actual_rank (job_calls (calls (cleanup c))) = true.
Proof.
  rewrite cleanup_eq. unfold calls, job_calls, in_order. cbn [snd].
  rewrite !flat_map_app, reaction_captureStop, reaction_outputRelease, !app_nil_r.
  fold (ranks ((closeRequest c ++ captureStop c ++ outputRelease c)
                 ++ flat_map reaction (closeRequest c))).
  rewrite <- !app_assoc, !ranks_app.
  apply nondecreasing_from_block with (k := 0%nat);
    [lia | apply ranks_closeRequest |].
  apply nondecreasing_from_block with (k := 1%nat);
    [lia | apply ranks_captureStop |].
  apply nondecreasing_from_block with (k := 2%nat);
    [lia | apply ranks_outputRelease |].
  rewrite <- (app_nil_r (ranks (flat_map reaction (closeRequest c)))).
  apply nondecreasing_from_block with (k := 3%nat);
    [lia | apply ranks_reaction_closeRequest | reflexivity].
Qed.

(** C8 as stated fails on an open session: neither the calls in program
    order nor the calls as performed put capture before the transport
    before the output. *)
Lemma teardown_order_not_as_specified :
  in_order specified_rank (calls (cleanup live)) = false
  /\ in_order specified_rank (job_calls (calls (cleanup live))) = false
  /\ job_calls (calls (cleanup live))
     = [ sessionPromise_then_close Fulfilled;
         scriptProcessor_disconnect; sourceNode_disconnect; track_stop 0;
         inputAudioContext_close; outputAudioContext_close; session_close ].
Proof. repeat split. Qed.

(** C9, at the failing input: for the tutor persona the instruction
    given to [connect] still contains the placeholder, twice as in the
    template, while the text chat's resolver leaves none for French. *)
Theorem live_connect_keeps_placeholder :
  In (live_connect (finalSystemInstruction language_tutor))
     (calls (handleConnect language_tutor (Normal [0%nat]) mounted))
  /\ JsString.includes "{language}" (finalSystemInstruction language_tutor) = true
  /\ JsString.includes "{language}"
       (TextChat.getSystemInstruction language_tutor French) = false.
Proof.
  split; [| split]; [| vm_compute; reflexivity | vm_compute; reflexivity].
  cbn. right. right. left. reflexivity.
Qed.

End SessionClaims.

(* ================================================================== *)
(** * Part III: further properties of the code                         *)
(* ================================================================== *)

Module CodecExtras.
Import Codec CodecFacts Fidelity.
Local Open Scope Z_scope.

(** Induction two elements at a time, as the 16-bit view reads bytes. *)
Lemma list_pair_ind {A : Type} (P : list A -> Prop) :
  P [] ->
  (forall a, P [a]) ->
  (forall a b l, P l -> P (a :: b :: l)) ->
  forall l, P l.
Proof.
  intros Hnil Hone Hstep l.
  enough (H : P l /\ forall a, P (a :: l)) by apply H.
  induction l as [| b l [IHl IHcons]]; split; auto.
Qed.

Lemma Int16Array_of_bytes_odd (bs : list Z) :
  Nat.odd (List.length bs) = true -> Int16Array_of_bytes bs = Throw RangeError.
Proof.
  induction bs as [| a | a b l IH] using list_pair_ind; intros Hodd.
  - discriminate.
  - reflexivity.
  - cbn [Int16Array_of_bytes]. rewrite IH; [reflexivity |].
    cbn [List.length] in Hodd. now rewrite Nat.odd_succ_succ in Hodd.
Qed.

Lemma Int16Array_of_bytes_even (bs : list Z) :
  Nat.even (List.length bs) = true ->
  exists xs,
    Int16Array_of_bytes bs = Normal xs
    /\ List.length xs = Nat.div2 (List.length bs)
    /\ Forall (fun v => -32768 <= v < 32768) xs.
Proof.
  induction bs as [| a | a b l IH] using list_pair_ind; intros Heven.
  - exists []. repeat split; constructor.
  - discriminate.
  - cbn [List.length] in Heven. rewrite Nat.even_succ_succ in Heven.
    destruct (IH Heven) as (xs & Hxs & Hlen & Hall).
    exists (int16_of_Z (a + 256 * b) :: xs).
    cbn [Int16Array_of_bytes]. rewrite Hxs. repeat split.
    + cbn [List.length Nat.div2]. now rewrite Hlen.
    + constructor; [apply int16_of_Z_range | exact Hall].
Qed.

Lemma int16_bytes_split (a b : Z) :
  0 <= a < 256 -> 0 <= b < 256 ->
  let v := int16_of_Z (a + 256 * b) in
  v mod 256 = a /\ (v / 256) mod 256 = b.
Proof.
  intros Ha Hb. cbn zeta. unfold int16_of_Z.
  rewrite (Z.mod_small (a + 256 * b) 65536) by lia.
  destruct (32768 <=? a + 256 * b) eqn:E.
  - replace (a + 256 * b - 65536) with (a + (b - 256) * 256) by lia.
    rewrite Z.mod_add, Z.div_add by lia.
    rewrite (Z.mod_small a 256), (Z.div_small a 256) by lia.
    split; [reflexivity |].
    replace (0 + (b - 256)) with (b + (-1) * 256) by lia.
    rewrite Z.mod_add by lia. now apply Z.mod_small.
  - replace (a + 256 * b) with (a + b * 256) by lia.
    rewrite Z.mod_add, Z.div_add by lia.
    rewrite (Z.mod_small a 256), (Z.div_small a 256) by lia.
    split; [reflexivity |]. now apply Z.mod_small.
Qed.

Lemma Uint8Array_view_roundtrip (bs : list Z) :
  Nat.even (List.length bs) = true ->
  Forall (fun b => 0 <= b < 256) bs ->
  exists xs, Int16Array_of_bytes bs = Normal xs /\ Uint8Array_of_Int16Array xs = bs.
Proof.
  induction bs as [| a | a b l IH] using list_pair_ind; intros Heven Hall.
  - now exists [].
  - discriminate.
  - cbn [List.length] in Heven. rewrite Nat.even_succ_succ in Heven.
    inversion Hall as [| ? ? Ha Hall']; subst.
    inversion Hall' as [| ? ? Hb Hl]; subst.
    destruct (IH Heven Hl) as (xs & Hxs & Hback).
    exists (int16_of_Z (a + 256 * b) :: xs).
    cbn [Int16Array_of_bytes]. rewrite Hxs. split; [reflexivity |].
    cbn [Uint8Array_of_Int16Array flat_map app].
    fold (Uint8Array_of_Int16Array xs). rewrite Hback.
    destruct (int16_bytes_split a b Ha Hb) as [-> ->]. reflexivity.
Qed.

(** X1. Every chunk [createBlob] makes is well formed: two bytes per
    sample, each byte in [0, 256), tagged as 16 kHz PCM. *)
Theorem createBlob_chunk_wellformed (samples : list number) :
  exists bytes,
    Genai.data (createBlob samples) = Some bytes
    /\ List.length bytes = (2 * List.length samples)%nat
    /\ Forall (fun b => 0 <= b < 256) bytes
    /\ Genai.mimeType (createBlob samples) = Some "audio/pcm;rate=16000"%string.
Proof.
  eexists. split; [reflexivity |]. split; [| split; [| reflexivity]].
  - induction samples as [| s rest IH]; [reflexivity |].
    cbn [int16_samples map Uint8Array_of_Int16Array flat_map app List.length].
    fold (int16_samples rest). fold (Uint8Array_of_Int16Array (int16_samples rest)).
    rewrite IH. lia.
  - induction samples as [| s rest IH]; [constructor |].
    cbn [int16_samples map Uint8Array_of_Int16Array flat_map app].
    repeat constructor; try apply IH; apply Z.mod_pos_bound; lia.
Qed.

(** X2. The two typed-array views are inverse to each other: 16-bit
    values seen as bytes and read back are unchanged, and an even number
    of bytes read as 16-bit values and seen as bytes again is unchanged. *)
Theorem typed_array_views_inverse :
  (forall xs : list Z,
      Forall (fun v => -32768 <= v < 32768) xs ->
      Int16Array_of_bytes (Uint8Array_of_Int16Array xs) = Normal xs)
  /\ (forall bs : list Z,
        Nat.even (List.length bs) = true ->
        Forall (fun b => 0 <= b < 256) bs ->
        exists xs,
          Int16Array_of_bytes bs = Normal xs /\ Uint8Array_of_Int16Array xs = bs).
Proof.
  split.
  - apply Int16Array_view_roundtrip.
  - apply Uint8Array_view_roundtrip.
Qed.

Lemma typed_array_views_example :
  Int16Array_of_bytes (Uint8Array_of_Int16Array [-2; 258]) = Normal [-2; 258]
  /\ exists xs,
       Int16Array_of_bytes [254; 255; 2; 1] = Normal xs
       /\ Uint8Array_of_Int16Array xs = [254; 255; 2; 1].
Proof.
  split.
  - apply (proj1 typed_array_views_inverse).
    repeat constructor; lia.
  - apply (proj2 typed_array_views_inverse); [reflexivity |].
    repeat constructor; lia.
Defined.

(** X3. A payload with an odd number of bytes cannot be decoded: the
    16-bit view raises RangeError, whatever the rate and channel count. *)
Theorem decodePCMAudioData_odd_length
        (bytes : list Z) (rate : positive) (numChannels : nat) :
  Nat.odd (List.length bytes) = true ->
  decodePCMAudioData bytes rate numChannels = Throw RangeError.
Proof.
  intros Hodd. unfold decodePCMAudioData.
  now rewrite Int16Array_of_bytes_odd.
Qed.

Lemma decodePCMAudioData_three_bytes :
  decodePCMAudioData [0; 1; 2] 24000 1 = Throw RangeError.
Proof. now apply decodePCMAudioData_odd_length. Defined.

End CodecExtras.

Module CodecExtras2.
Import Codec CodecFacts Fidelity CodecExtras.
Local Open Scope Z_scope.

Lemma Int16Array_of_bytes_range (bs xs : list Z) :
  Int16Array_of_bytes bs = Normal xs ->
  Forall (fun v => -32768 <= v < 32768) xs.
Proof.
  revert xs.
  induction bs as [| a | a b l IH] using list_pair_ind; intros xs H.
  - injection H as <-. constructor.
  - discriminate.
  - cbn [Int16Array_of_bytes] in H.
    destruct (Int16Array_of_bytes l) as [ys | e]; [| discriminate].
    injection H as <-. constructor; [apply int16_of_Z_range | now apply IH].
Qed.

Lemma nth_in_range (xs : list Z) (k : nat) :
  Forall (fun v => -32768 <= v < 32768) xs -> -32768 <= nth k xs 0 < 32768.
Proof.
  intros Hall. destruct (Nat.lt_ge_cases k (List.length xs)) as [Hk | Hk].
  - rewrite Forall_forall in Hall. apply Hall. now apply nth_In.
  - rewrite nth_overflow by exact Hk. lia.
Qed.

Lemma nth_error_map_seq {A : Type} (f : nat -> A) (n i : nat) :
  (i < n)%nat -> nth_error (map f (seq 0 n)) i = Some (f i).
Proof.
  intros Hi. rewrite nth_error_map, nth_error_seq.
  apply Nat.ltb_lt in Hi. now rewrite Hi.
Qed.

Lemma map_nth_seq_id (xs : list Z) :
  map (fun i => nth i xs 0) (seq 0 (List.length xs)) = xs.
Proof.
  induction xs as [| x xs IH]; [reflexivity |].
  cbn [List.length seq map nth]. f_equal.
  rewrite <- seq_shift, map_map. exact IH.
Qed.

Lemma reencode_decoded_sample (n : Z) :
  -32768 <= n < 32768 -> ToInt16 (times32768 (Fin (n # 32768))) = n.
Proof.
  intros Hn. cbn [times32768 ToInt16]. rewrite truncate_times32768.
  rewrite Z.quot_mul by lia. now apply int16_of_Z_small.
Qed.

(** X4. Decoding de-interleaves: for a rate and a channel count that
    every platform supports (8000 to 96000 Hz, 1 to 32 channels) and an
    even number of bytes holding at least one frame of [numChannels]
    channels, the buffer has that many channels of
    [samples / numChannels] frames each at the given rate, and frame [i]
    of channel [c] is 16-bit sample [i * numChannels + c] of the payload,
    divided by 32768. *)
Theorem decodePCMAudioData_deinterleaves
        (bytes : list Z) (rate : positive) (numChannels : nat) :
  supported rate numChannels ->
  Nat.even (List.length bytes) = true ->
  (numChannels <= Nat.div2 (List.length bytes))%nat ->
  exists buf dataInt16,
    Int16Array_of_bytes bytes = Normal dataInt16
    /\ decodePCMAudioData bytes rate numChannels = Normal buf
    /\ numberOfChannels buf = numChannels
    /\ Codec.length buf = (Nat.div2 (List.length bytes) / numChannels)%nat
    /\ sampleRate buf = rate
    /\ List.length (channels buf) = numChannels
    /\ forall c i,
         (c < numChannels)%nat -> (i < Codec.length buf)%nat ->
         (i * numChannels + c < List.length dataInt16)%nat
         /\ exists ch,
              nth_error (channels buf) c = Some ch
              /\ List.length ch = Codec.length buf
              /\ nth_error ch i
                 = Some (Qmake (nth (i * numChannels + c) dataInt16 0) 32768).
Proof.
  intros [[Hpos _] _] Heven Hfit.
  destruct (Int16Array_of_bytes_even bytes Heven) as (d16 & Hd & Hlen & _).
  rewrite <- Hlen in *.
  assert (Hframes : (0 < List.length d16 / numChannels)%nat)
    by (apply Nat.div_str_pos; lia).
  unfold decodePCMAudioData. rewrite Hd. cbv zeta.
  destruct (Nat.eqb_spec numChannels 0) as [-> | _]; [lia |].
  destruct (Nat.eqb_spec (List.length d16 / numChannels) 0) as [E | _]; [lia |].
  cbn [orb]. eexists _, d16. split; [reflexivity |]. split; [reflexivity |].
  cbn [numberOfChannels Codec.length sampleRate channels].
  do 3 (split; [reflexivity |]).
  split; [now rewrite length_map, length_seq |].
  intros c i Hc Hi. split.
  - pose proof (Nat.Div0.mul_div_le (List.length d16) numChannels). nia.
  - exists (channelData d16 numChannels (List.length d16 / numChannels) c).
    split; [exact (nth_error_map_seq (channelData d16 numChannels _) _ _ Hc) |].
    split.
    + unfold channelData. now rewrite length_map, length_seq.
    + exact (nth_error_map_seq
               (fun k => Qmake (nth (k * numChannels + c) d16 0) 32768) _ _ Hi).
Qed.

Lemma decodePCMAudioData_stereo_frame :
  supported 24000 2
  /\ exists buf dataInt16,
       Int16Array_of_bytes [1; 0; 2; 0; 3; 0; 4; 0] = Normal dataInt16
       /\ decodePCMAudioData [1; 0; 2; 0; 3; 0; 4; 0] 24000 2 = Normal buf
       /\ channels buf = [[1 # 32768; 3 # 32768]; [2 # 32768; 4 # 32768]]%Q.
Proof.
  assert (S : supported 24000 2) by (unfold supported; lia).
  split; [exact S |].
  destruct (decodePCMAudioData_deinterleaves [1; 0; 2; 0; 3; 0; 4; 0] 24000 2
              S eq_refl ltac:(cbn; lia))
    as (buf & d16 & Hd & Hbuf & _).
  exists buf, d16. split; [exact Hd |]. split; [exact Hbuf |].
  cbv in Hbuf. now injection Hbuf as <-.
Defined.

(** X5. Whatever the payload, every sample the decoder produces lies in
    [-1, 1): the value 1 is never produced. *)
Theorem decoded_samples_in_unit_range
        (bytes : list Z) (rate : positive) (numChannels : nat)
        (buf : AudioBuffer) (ch : list Q) (y : Q) :
  decodePCMAudioData bytes rate numChannels = Normal buf ->
  In ch (channels buf) ->
  In y ch ->
  (-1 <= y)%Q /\ (y < 1)%Q.
Proof.
  unfold decodePCMAudioData.
  destruct (Int16Array_of_bytes bytes) as [d16 | e] eqn:Hd; [| discriminate].
  cbv zeta.
  destruct (Nat.eqb numChannels 0 || Nat.eqb (List.length d16 / numChannels) 0)%bool;
    [discriminate |].
  intros Hbuf Hch Hy. injection Hbuf as <-. cbn [channels] in Hch.
  apply in_map_iff in Hch as (c & <- & _).
  unfold channelData in Hy. apply in_map_iff in Hy as (i & <- & _).
  pose proof (nth_in_range d16 (i * numChannels + c)
                (Int16Array_of_bytes_range _ _ Hd)) as Hr.
  unfold Qle, Qlt. cbn [Qnum Qden]. lia.
Qed.

Lemma decoded_extreme_in_unit_range :
  (-1 <= 32767 # 32768)%Q /\ (32767 # 32768 < 1)%Q.
Proof.
  apply (decoded_samples_in_unit_range [0; 128; 255; 127] 24000 1
           {| numberOfChannels := 1; Codec.length := 2; sampleRate := 24000;
              channels := [[-32768 # 32768; 32767 # 32768]]%Q |}
           [-32768 # 32768; 32767 # 32768]%Q (32767 # 32768)%Q);
    [reflexivity | now left | right; now left].
Defined.

(** X6. Decoding a payload and encoding the decoded samples again gives
    back the same bytes: the capture encoder is exact on every value the
    playback decoder can produce. *)
Theorem decode_then_encode_identity (bytes : list Z) :
  bytes <> [] ->
  Nat.even (List.length bytes) = true ->
  Forall (fun b => 0 <= b < 256) bytes ->
  exists buf ch,
    decodePCMAudioData bytes 24000 1 = Normal buf
    /\ channels buf = [ch]
    /\ Genai.payload (createBlob (map Fin ch)) = bytes.
Proof.
  intros Hne Heven Hbytes.
  destruct (Uint8Array_view_roundtrip bytes Heven Hbytes) as (xs & Hxs & Hback).
  pose proof (Int16Array_of_bytes_range _ _ Hxs) as Hrange.
  assert (Hxne : xs <> []).
  { intros ->. cbn in Hback. now subst bytes. }
  unfold decodePCMAudioData. rewrite Hxs. cbv zeta. rewrite Nat.div_1_r.
  destruct (Nat.eqb_spec (List.length xs) 0) as [E | _];
    [now apply length_zero_iff_nil in E |].
  cbn [Nat.eqb orb seq map].
  eexists _, _. split; [reflexivity |]. split; [reflexivity |].
  cbn [Genai.payload Genai.data createBlob]. rewrite <- Hback. f_equal.
  etransitivity; [| apply (map_nth_seq_id xs)].
  unfold int16_samples, channelData. rewrite !map_map.
  apply map_ext. intros i.
  rewrite Nat.mul_1_r, Nat.add_0_r.
  apply reencode_decoded_sample. now apply nth_in_range.
Qed.

Lemma decode_then_encode_four_bytes :
  exists buf ch,
    decodePCMAudioData [0; 128; 255; 127] 24000 1 = Normal buf
    /\ channels buf = [ch]
    /\ Genai.payload (createBlob (map Fin ch)) = [0; 128; 255; 127].
Proof.
  apply decode_then_encode_identity;
    [discriminate | reflexivity | repeat constructor; lia].
Defined.

Lemma truncate_scaled_shrinks (x : Q) :
  let y := Qmake (truncate (x * 32768)) 32768 in
  (Qabs y <= Qabs x)%Q
  /\ ((0 <= x)%Q -> (0 <= y)%Q)
  /\ ((x <= 0)%Q -> (y <= 0)%Q).
Proof.
  destruct x as [n d]. cbv zeta. rewrite truncate_times32768.
  pose proof (Z.quot_rem' (n * 32768) (Zpos d)) as E.
  pose proof (Z.rem_bound_abs (n * 32768) (Zpos d) ltac:(lia)) as A.
  set (t := Z.quot (n * 32768) (Zpos d)) in *.
  set (r := Z.rem (n * 32768) (Zpos d)) in *.
  assert (Hsign : n <= 0 /\ r <= 0 \/ 0 <= n /\ 0 <= r).
  { destruct (Z.le_ge_cases n 0) as [Hn | Hn]; [left | right]; split; trivial.
    - apply Z.rem_nonpos; lia.
    - apply Z.rem_nonneg; lia. }
  assert (Ht : (n <= 0 -> t <= 0) /\ (0 <= n -> 0 <= t)).
  { split; intros Hn.
    - apply Z.quot_le_upper_bound; lia.
    - apply Z.quot_pos; lia. }
  unfold Qle. cbn [Qabs Qnum Qden]. repeat split.
  - destruct Hsign as [[Hn Hr] | [Hn Hr]].
    + rewrite (Z.abs_neq t), (Z.abs_neq n) by (try apply Ht; lia). lia.
    + rewrite (Z.abs_eq t), (Z.abs_eq n) by (try apply Ht; lia). lia.
  - intros Hx. destruct Ht as [_ Ht]. specialize (Ht ltac:(lia)). lia.
  - intros Hx. destruct Ht as [Ht _]. specialize (Ht ltac:(lia)). lia.
Qed.

(** X7. The round trip never amplifies and never flips a sign: a finite
    sample in [-1, 1) comes back with a magnitude no larger than its own,
    non-negative if it was non-negative and non-positive if it was
    non-positive (so silence stays silence). *)
Theorem pcm_roundtrip_shrinks (samples : list number) (i : nat) (x : Q) :
  nth_error samples i = Some (Fin x) ->
  (-1 <= x)%Q -> (x < 1)%Q ->
  exists buf ch y,
    roundtrip samples = Normal buf
    /\ channels buf = [ch]
    /\ nth_error ch i = Some y
    /\ (Qabs y <= Qabs x)%Q
    /\ ((0 <= x)%Q -> (0 <= y)%Q)
    /\ ((x <= 0)%Q -> (y <= 0)%Q).
Proof.
  intros Hi Hlo Hhi.
  assert (Hne : samples <> []) by (intros ->; destruct i; discriminate).
  assert (Hlt : (i < List.length samples)%nat)
    by (apply nth_error_Some; congruence).
  eexists _, _, _. split; [apply (roundtrip_buffer _ Hne) |].
  cbn [channels]. split; [reflexivity |].
  split; [apply nth_error_channelData_mono, Hlt |].
  unfold int16_samples.
  rewrite (nth_error_nth _ _ 0 (map_nth_error _ _ _ Hi)).
  cbn [times32768 ToInt16].
  rewrite int16_of_Z_small by now apply truncate_scaled_range.
  apply truncate_scaled_shrinks.
Qed.

Lemma pcm_roundtrip_shrinks_minus_third :
  exists buf ch y,
    roundtrip [Fin (-1 # 3)] = Normal buf
    /\ channels buf = [ch]
    /\ nth_error ch 0 = Some y
    /\ (Qabs y <= 1 # 3)%Q
    /\ (y <= 0)%Q.
Proof.
  destruct (pcm_roundtrip_shrinks [Fin (-1 # 3)] 0 (-1 # 3) eq_refl
              ltac:(discriminate) ltac:(reflexivity))
    as (buf & ch & y & Hr & Hch & Hy & Habs & _ & Hneg).
  exists buf, ch, y. repeat split; auto.
  apply Hneg. discriminate.
Defined.

End CodecExtras2.

Module LifecycleFacts.
Import Constants LiveChat Teardown LiveChatFacts MessageFacts Playback Lifecycle.
Local Open Scope string_scope.

Lemma handleConnect_stretches_eq
      (agent : Agent) (media : Completion MediaStream) (c : Component) :
  handleConnect agent media c = handleConnect_stretches agent media c.
Proof.
  unfold handleConnect, handleConnect_stretches, handleConnect_begin,
    handleConnect_contextReady, handleConnect_mediaSettled, startFailed,
    try_catch, bind, get, modify, call, ret, lift.
  destruct c as [st hist cu cm p ictx octx mic sp sn srcs next ur mr].
  destruct st, media as [stream | e]; cbn -[cleanup]; try reflexivity;
    match goal with
    | |- context [cleanup ?c'] => destruct (cleanup c') as [[r c2] log2]
    end; reflexivity.
Qed.

(** What each handler leaves of the component. *)
Lemma after_cleanup (c : Component) : after (cleanup c) = cleaned c.
Proof. now rewrite cleanup_eq. Qed.

Lemma after_onError (c : Component) : after (onError c) = cleaned c.
Proof.
  unfold onError, bind, call, modify. rewrite cleanup_eq. now destruct c.
Qed.

Lemma after_startFailed (c : Component) : after (startFailed c) = cleaned c.
Proof.
  unfold startFailed, bind, call, modify. rewrite cleanup_eq. now destruct c.
Qed.

Lemma after_mediaSettled (media : Completion MediaStream) (c : Component) :
  after (handleConnect_mediaSettled media c)
  = match media with
    | Normal stream =>
        set_scriptProcessorRef (Some {| bufferSize := 4096 |})
          (set_sourceNodeRef (Some {| mediaStream := stream |})
             (set_outputAudioContextRef (Some running)
                (set_inputAudioContextRef (Some running)
                   (set_microphoneStreamRef (Some stream) c))))
    | Throw _ => cleaned c
    end.
Proof.
  unfold handleConnect_mediaSettled, try_catch.
  destruct media as [stream | e].
  - reflexivity.
  - unfold bind, lift. cbn -[startFailed]. rewrite <- (after_startFailed c).
    now destruct (startFailed c) as [[r c2] log2].
Qed.

Lemma after_onMessage (message : Genai.LiveServerMessage) (now : Double.double) (c : Component) :
  after (onMessage message now c)
  = after (playAudio message now
             (after (finalizeTurn message (after (accumulate message c))))).
Proof. now rewrite onMessage_eq. Qed.

Lemma after_onaudioprocess (inputData : list Codec.number) (c : Component) :
  after (onaudioprocess inputData c) = c.
Proof.
  unfold onaudioprocess, bind, get. cbn.
  now destruct (sessionPromiseRef c).
Qed.

Lemma after_sessionSettled (outcome : PromiseState) (c : Component) :
  after (sessionSettled outcome c)
  = match sessionPromiseRef c with
    | Some Pending => set_sessionPromiseRef (Some outcome) c
    | _ => c
    end.
Proof.
  unfold sessionSettled, bind, get. cbn.
  now destruct (sessionPromiseRef c) as [[]|].
Qed.

Lemma after_buttonClicked (agent : Agent) (c : Component) :
  after (buttonClicked agent c)
  = match sessionState c with
    | connected => cleaned c
    | idle | error =>
        set_sessionState fetching_context (set_transcriptionHistory [] c)
    | _ => c
    end.
Proof.
  unfold buttonClicked, bind at 1, get.
  cbn -[cleanup handleConnect_begin bind].
  destruct (sessionState c) eqn:Hst; cbn -[cleanup handleConnect_begin bind];
    try reflexivity.
  - unfold handleConnect_begin, bind, get, modify, call, ret. cbn.
    now rewrite Hst.
  - rewrite <- (after_cleanup c). now destruct (cleanup c) as [[r c2] log2].
  - unfold handleConnect_begin, bind, get, modify, call, ret. cbn.
    now rewrite Hst.
Qed.

Lemma onMessage_sessionPromiseRef
      (message : Genai.LiveServerMessage) (now : Double.double) (c : Component) :
  sessionPromiseRef (after (onMessage message now c)) = sessionPromiseRef c.
Proof.
  rewrite after_onMessage.
  set (c2 := after (finalizeTurn message (after (accumulate message c)))).
  assert (H2 : sessionPromiseRef c2 = sessionPromiseRef c).
  { subst c2. unfold finalizeTurn.
    destruct (turnCompleted message);
      destruct message as [[[[tr|] [tr'|] tc mt]|]]; now destruct c. }
  rewrite <- H2. clearbody c2.
  destruct (playAudio_outcome message now c2); now destruct c2.
Qed.

(** A quiet event keeps a session promise in its ref. *)
Lemma quiet_keeps_promise (e : Event) (c : Component) :
  quiet e = true ->
  sessionPromiseRef c <> None ->
  sessionPromiseRef (after (handler e c)) <> None.
Proof.
  intros Hq Hp. destruct e; try discriminate; cbn [handler].
  - rewrite after_sessionSettled.
    destruct (sessionPromiseRef c) as [[] |] eqn:E; try congruence.
    now destruct c.
  - now destruct c.
  - now rewrite onMessage_sessionPromiseRef.
  - now rewrite after_onaudioprocess.
Qed.

Lemma quiet_run_keeps_promise (events : list Event) :
  forall c,
    Forall (fun e => quiet e = true) events ->
    sessionPromiseRef c <> None ->
    sessionPromiseRef (run events c) <> None.
Proof.
  induction events as [| e rest IH]; intros c Hall Hp; [exact Hp |].
  apply Forall_cons_iff in Hall as [He Hrest].
  cbn [run]. apply IH; [exact Hrest |]. now apply quiet_keeps_promise.
Qed.

Lemma contextReady_promise (agent : Agent) (c : Component) :
  sessionPromiseRef (after (handleConnect_contextReady agent c)) = Some Pending.
Proof. now destruct c. Qed.

Lemma mediaSettled_eq (media : Completion MediaStream) (c : Component) :
  handleConnect_mediaSettled media c
  = match media with
    | Normal stream =>
        (Normal tt,
         set_scriptProcessorRef (Some {| bufferSize := 4096 |})
           (set_sourceNodeRef (Some {| mediaStream := stream |})
              (set_outputAudioContextRef (Some running)
                 (set_inputAudioContextRef (Some running)
                    (set_microphoneStreamRef (Some stream) c)))),
         [sourceNode_connect; scriptProcessor_connect])
    | Throw _ =>
        (Normal tt, cleaned c,
         console_error
           :: (closeRequest c ++ captureStop c ++ outputRelease c)%list)
    end.
Proof.
  unfold handleConnect_mediaSettled, try_catch.
  destruct media as [stream | e]; [reflexivity |].
  unfold bind, lift, startFailed, call, modify. cbn -[cleanup].
  rewrite cleanup_eq. now destruct c.
Qed.

Lemma paired_app (h1 h2 : list TranscriptionEntry) :
  paired h1 -> paired h2 -> paired (h1 ++ h2).
Proof.
  induction h1 as [| a | a b l IH] using CodecExtras.list_pair_ind;
    cbn; intros H1 H2; tauto.
Qed.

Lemma steady_cleaned (c : Component) :
  paired (transcriptionHistory c) -> allOrNothing c -> steady (cleaned c).
Proof.
  intros Hp Ha.
  split; [split; reflexivity |]. split; [exact Hp |]. split; [| discriminate].
  left. unfold cleaned.
  cbn [microphoneStreamRef scriptProcessorRef sourceNodeRef
       inputAudioContextRef outputAudioContextRef].
  destruct Ha as [(_ & _ & _ & Hi & Ho)
                 | (s & pr & ic & oc & _ & _ & _ & Hi & Ho & Hic & Hoc)];
    rewrite Hi, Ho; [repeat split |].
  destruct ic, oc; try discriminate; repeat split.
Qed.

Lemma steady_onMessage (message : Genai.LiveServerMessage) (now : Double.double) (c : Component) :
  steady c -> steady (after (onMessage message now c)).
Proof.
  intros (Hs & Hp & Ha & He). rewrite after_onMessage.
  assert (H2 : steady (after (finalizeTurn message (after (accumulate message c))))).
  { unfold finalizeTurn.
    destruct message as [[[[[t1] |] [[t2] |] [[] |] mt] |]];
      destruct c as [st hist cu cm p ictx octx mic sp sn srcs next ur mr];
      destruct Hs as [Hu Hm]; cbn in Hu, Hm, Hp, He; subst; cbn;
      (split; [split; reflexivity |]);
      (split; [try exact Hp; apply paired_app; cbn; auto |]);
      (split; [exact Ha | exact He]). }
  destruct (playAudio_outcome message now
              (after (finalizeTurn message (after (accumulate message c)))));
    cbn [after fst snd];
    destruct (after (finalizeTurn message (after (accumulate message c))));
    exact H2.
Qed.

Lemma steady_handler (e : Event) (c : Component) :
  steady c -> steady (after (handler e c)).
Proof.
  intros Hc. pose proof Hc as (Hs & Hp & Ha & He).
  destruct e as [agent | agent | media | outcome | | message now | | | data |];
    cbn [handler].
  - rewrite after_buttonClicked.
    destruct (sessionState c) eqn:Hst; try exact Hc.
    + destruct c; repeat split; try apply Hs; try exact Ha; discriminate.
    + now apply steady_cleaned.
    + destruct c; repeat split; try apply Hs; try exact Ha; discriminate.
  - destruct c; repeat split; try apply Hs; try exact Hp; try exact Ha; discriminate.
  - rewrite after_mediaSettled. destruct media as [stream | err].
    + destruct c; repeat split; try apply Hs; try exact Hp; try exact He.
      right. exists stream, {| bufferSize := 4096 |}, running, running.
      repeat split.
    + now apply steady_cleaned.
  - rewrite after_sessionSettled.
    destruct (sessionPromiseRef c) as [[]|]; exact Hc.
  - destruct c; repeat split; try apply Hs; try exact Hp; try exact Ha; discriminate.
  - now apply steady_onMessage.
  - rewrite after_onError. now apply steady_cleaned.
  - unfold onClose. rewrite after_cleanup. now apply steady_cleaned.
  - now rewrite after_onaudioprocess.
  - rewrite after_cleanup. now apply steady_cleaned.
Qed.

Lemma steady_run (events : list Event) :
  forall c, steady c -> steady (run events c).
Proof.
  induction events as [| e rest IH]; intros c Hc; [exact Hc |].
  cbn [run]. apply IH. now apply steady_handler.
Qed.

Lemma steady_mounted : steady Scenario.mounted.
Proof.
  repeat split; try discriminate. left. repeat split.
Qed.

End LifecycleFacts.

Module LifecycleExtras.
Import Constants LiveChat Teardown LiveChatFacts MessageFacts Playback
       Lifecycle LifecycleFacts Scenario.
Local Open Scope string_scope.

(** X8. Whatever callbacks run, in whatever order, the partial
    transcripts on display are the accumulated buffers. *)
Theorem displayed_transcripts_follow_buffers (events : list Event) :
  synced (run events mounted).
Proof. apply (steady_run events mounted steady_mounted). Qed.

(** X9. Whatever callbacks run, in whatever order, the history is a
    sequence of turns: a user entry, then a model entry. *)
Theorem history_is_made_of_turns (events : list Event) :
  paired (transcriptionHistory (run events mounted)).
Proof. apply (steady_run events mounted steady_mounted). Qed.

(** X10. Whatever callbacks run, in whatever order, the microphone
    stream, the two audio nodes and the two audio contexts are held all
    together or not at all, and a context held is open. *)
Theorem capture_refs_all_or_nothing (events : list Event) :
  allOrNothing (run events mounted).
Proof. apply (steady_run events mounted steady_mounted). Qed.

(** X11. No callback leaves the component in state [error]: every path
    that sets it runs [cleanup] next, which sets [idle]. *)
Theorem error_state_never_rests (events : list Event) :
  sessionState (run events mounted) <> error.
Proof. apply (steady_run events mounted steady_mounted). Qed.

(** X12. Start then stop is clean, whatever happened while
    [handleConnect] was waiting.  In whatever state the grant of the
    microphone finds the component, once the last stretch of
    [handleConnect] has run a stop asks the session promise then held, if
    any, to close, disconnects both nodes, stops every track of the
    granted stream, closes both contexts, stops the sources still queued,
    and leaves no ref set.  If nothing but quiet events (the promise
    settling, the connection opening, messages, microphone windows)
    occurred since the session was requested, a promise is held, so the
    close is asked for. *)
Theorem start_then_stop_releases (stream : MediaStream) (c : Component) :
  let c1 := after (handleConnect_mediaSettled (Normal stream) c) in
  calls (cleanup c1)
  = (closeRequest c
     ++ scriptProcessor_disconnect :: sourceNode_disconnect
     :: map track_stop stream
     ++ [inputAudioContext_close; outputAudioContext_close]
     ++ map source_stop (outputAudioSources c))%list
  /\ sessionPromiseRef (after (cleanup c1)) = None
  /\ microphoneStreamRef (after (cleanup c1)) = None
  /\ scriptProcessorRef (after (cleanup c1)) = None
  /\ sourceNodeRef (after (cleanup c1)) = None
  /\ inputAudioContextRef (after (cleanup c1)) = None
  /\ outputAudioContextRef (after (cleanup c1)) = None
  /\ (forall (agent : Agent) (during : list Event) (c0 : Component),
        Forall (fun e => quiet e = true) during ->
        c = run during (after (handleConnect_contextReady agent c0)) ->
        exists st, closeRequest c = [sessionPromise_then_close st]).
Proof.
  cbv zeta. rewrite mediaSettled_eq, cleanup_eq. unfold after, calls.
  cbn [fst snd]. split; [| repeat split].
  - destruct c as [st hist cu cm p ictx octx mic sp sn srcs next ur mr].
    unfold closeRequest, captureStop, outputRelease. cbn.
    now rewrite <- !app_assoc.
  - intros agent during c0 Hq ->.
    pose proof (quiet_run_keeps_promise during
                  (after (handleConnect_contextReady agent c0)) Hq) as H.
    rewrite contextReady_promise in H. specialize (H ltac:(discriminate)).
    unfold closeRequest.
    destruct (sessionPromiseRef (run during _)) as [st |]; [| contradiction].
    now exists st.
Qed.

(** The connection opens and the promise resolves while the microphone
    prompt is up; the stream granted has two tracks. *)
Lemma start_then_stop_two_tracks :
  let c := run [Opened; SessionSettled Fulfilled]
               (after (handleConnect_contextReady general
                         (after (handleConnect_begin general mounted)))) in
  let c1 := after (handleConnect_mediaSettled (Normal [0%nat; 1%nat]) c) in
  Forall (fun e => quiet e = true) [Opened; SessionSettled Fulfilled]
  /\ sessionState c1 = connected
  /\ closeRequest c = [sessionPromise_then_close Fulfilled]
  /\ calls (cleanup c1)
     = [ sessionPromise_then_close Fulfilled;
         scriptProcessor_disconnect; sourceNode_disconnect;
         track_stop 0; track_stop 1;
         inputAudioContext_close; outputAudioContext_close ].
Proof.
  cbv zeta.
  assert (Hq : Forall (fun e => quiet e = true) [Opened; SessionSettled Fulfilled])
    by (repeat constructor).
  split; [exact Hq |]. split; [reflexivity |].
  destruct (start_then_stop_releases [0%nat; 1%nat]
              (run [Opened; SessionSettled Fulfilled]
                   (after (handleConnect_contextReady general
                             (after (handleConnect_begin general mounted))))))
    as (Hcalls & _ & _ & _ & _ & _ & _ & Hheld).
  destruct (Hheld general [Opened; SessionSettled Fulfilled]
              (after (handleConnect_begin general mounted)) Hq eq_refl)
    as (st & Hst).
  split; [reflexivity |]. exact Hcalls.
Defined.

(** X13. No stretch of [handleConnect] rejects.  When the microphone
    request fails, in whatever state that finds the component, the catch
    block logs the failure and runs [cleanup]: the session promise then
    held, pending or settled, is asked to close, and no session, stream
    or node is left.  If nothing but quiet events occurred since the
    session was requested, a promise is held, so the close is asked
    for. *)
Theorem handleConnect_failure_is_contained
        (agent : Agent) (e : JsError) (c : Component) :
  (exists entered, result (handleConnect_begin agent c) = Normal entered)
  /\ result (handleConnect_contextReady agent c) = Normal tt
  /\ (forall media, result (handleConnect_mediaSettled media c) = Normal tt)
  /\ (let r := handleConnect_mediaSettled (Throw e) c in
      calls r
      = (console_error :: closeRequest c ++ captureStop c ++ outputRelease c)%list
      /\ sessionState (after r) = idle
      /\ sessionPromiseRef (after r) = None
      /\ microphoneStreamRef (after r) = None
      /\ scriptProcessorRef (after r) = None
      /\ sourceNodeRef (after r) = None
      /\ (forall st,
            sessionPromiseRef c = Some st ->
            In (sessionPromise_then_close st) (calls r))
      /\ (forall (during : list Event) (c0 : Component),
            Forall (fun ev => quiet ev = true) during ->
            c = run during (after (handleConnect_contextReady agent c0)) ->
            exists st, In (sessionPromise_then_close st) (calls r))).
Proof.
  split; [| split; [| split]].
  - unfold handleConnect_begin, bind, get, modify, call, ret.
    destruct c as [st hist cu cm p ictx octx mic sp sn srcs next ur mr].
    destruct st; cbn; eauto.
  - now destruct c.
  - intros media. rewrite mediaSettled_eq. now destruct media.
  - cbv zeta. rewrite mediaSettled_eq. unfold after, calls. cbn [fst snd].
    do 6 (split; [reflexivity |]). split.
    + intros st Hst. right. apply in_or_app. left.
      unfold closeRequest. rewrite Hst. now left.
    + intros during c0 Hq ->.
      pose proof (quiet_run_keeps_promise during
                    (after (handleConnect_contextReady agent c0)) Hq) as H.
      rewrite contextReady_promise in H. specialize (H ltac:(discriminate)).
      destruct (sessionPromiseRef (run during _)) as [st |] eqn:E;
        [| contradiction].
      exists st. right. apply in_or_app. left.
      unfold closeRequest. unfold after in E. rewrite E. now left.
Qed.

(** The microphone is denied while the session promise is still
    pending. *)
Lemma handleConnect_denied_from_idle :
  let c := after (handleConnect_contextReady general
                    (after (handleConnect_begin general mounted))) in
  let r := handleConnect_mediaSettled (Throw NotAllowedError) c in
  sessionPromiseRef c = Some Pending
  /\ result r = Normal tt
  /\ In (sessionPromise_then_close Pending) (calls r)
  /\ sessionPromiseRef (after r) = None
  /\ microphoneStreamRef (after r) = None.
Proof.
  cbv zeta.
  destruct (handleConnect_failure_is_contained general NotAllowedError
              (after (handleConnect_contextReady general
                        (after (handleConnect_begin general mounted)))))
    as (_ & _ & Hres & _ & _ & Hp & Hm & _ & _ & Hclose & _).
  split; [reflexivity |]. split; [apply Hres |].
  split; [exact (Hclose Pending eq_refl) |].
  split; [exact Hp | exact Hm].
Defined.

End LifecycleExtras.

Module MessageExtras.
Import Constants LiveChat Teardown LiveChatFacts MessageFacts Playback
       Lifecycle LifecycleFacts Scenario.
Local Open Scope string_scope.

Lemma string_append_assoc (a b c : string) : (a ++ b) ++ c = a ++ (b ++ c).
Proof. induction a as [| ch a IH]; cbn; [reflexivity | now rewrite IH]. Qed.

Lemma string_append_nil_r (a : string) : a ++ "" = a.
Proof. induction a as [| ch a IH]; cbn; [reflexivity | now rewrite IH]. Qed.

Lemma prefix_append (a b : string) : prefix a (a ++ b) = true.
Proof.
  induction a as [| ch a IH]; cbn; [now destruct b |].
  destruct (ascii_dec ch ch) as [_ | Hne]; [exact IH | contradiction].
Qed.

Lemma prefix_refl (a : string) : prefix a a = true.
Proof. rewrite <- (string_append_nil_r a) at 2. apply prefix_append. Qed.

Lemma sameSession_refl (c : Component) : sameSession c c.
Proof. repeat split. Qed.

Lemma sameSession_trans (c1 c2 c3 : Component) :
  sameSession c1 c2 -> sameSession c2 c3 -> sameSession c1 c3.
Proof.
  unfold sameSession.
  intros (A1 & A2 & A3 & A4 & A5 & A6 & A7) (B1 & B2 & B3 & B4 & B5 & B6 & B7).
  repeat split; congruence.
Qed.

Lemma accumulate_sameSession (message : Genai.LiveServerMessage) (c : Component) :
  sameSession c (after (accumulate message c)).
Proof.
  destruct message as [[[[tr|] [tr'|] tc mt]|]]; destruct c; repeat split.
Qed.

Lemma finalizeTurn_sameSession (message : Genai.LiveServerMessage) (c : Component) :
  sameSession c (after (finalizeTurn message c)).
Proof.
  unfold finalizeTurn. destruct (turnCompleted message); destruct c; repeat split.
Qed.

Lemma playAudio_sameSession (message : Genai.LiveServerMessage) (now : Double.double) (c : Component) :
  sameSession c (after (playAudio message now c)).
Proof.
  destruct (playAudio_outcome message now c); destruct c; repeat split.
Qed.

(** X14. Handling a server message never changes the session: the
    state, the session promise, the microphone stream, the audio nodes
    and the audio contexts are what they were, whatever the message holds
    and whether or not the handler throws. *)
Theorem onMessage_keeps_session
        (message : Genai.LiveServerMessage) (now : Double.double) (c : Component) :
  sameSession c (after (onMessage message now c)).
Proof.
  rewrite after_onMessage.
  eapply sameSession_trans; [apply accumulate_sameSession |].
  eapply sameSession_trans; [apply finalizeTurn_sameSession |].
  apply playAudio_sameSession.
Qed.

(** X15. Nothing plays after a stop: once [cleanup] has run on a
    component whose output context was not already closed, a message that
    arrives late starts no source and queues none. *)
Theorem no_playback_after_stop
        (message : Genai.LiveServerMessage) (now : Double.double) (c : Component) :
  outputAudioContextRef c <> Some closed ->
  let r := onMessage message now (after (cleanup c)) in
  started (calls r) = [] /\ outputAudioSources (after r) = [].
Proof.
  intros Hopen. cbv zeta. rewrite after_cleanup, onMessage_eq.
  set (c2 := after (finalizeTurn message (after (accumulate message (cleaned c))))).
  assert (Hsess : sameSession (cleaned c) c2).
  { eapply sameSession_trans;
      [apply accumulate_sameSession | apply finalizeTurn_sameSession]. }
  assert (Hsrc : outputAudioSources c2 = []).
  { subst c2.
    destruct (finalizeTurn_frame message (after (accumulate message (cleaned c))))
      as (_ & ->).
    now destruct (accumulate_frame message (cleaned c)) as (_ & _ & ->). }
  assert (Hctx : outputAudioContextRef c2 = None).
  { destruct Hsess as (_ & _ & _ & _ & _ & _ & ->). cbn.
    destruct (outputAudioContextRef c) as [[]|]; try reflexivity.
    now contradiction Hopen. }
  clearbody c2. unfold playAudio, bind, lift, get.
  destruct (audioData message) as [[[| b bytes] |] | e]; cbn -[schedule];
    rewrite ?Hctx; cbn; auto.
Qed.

Lemma no_playback_after_stop_live :
  let r := onMessage (audioMessage [0; 0]%Z) (Double.of_Z 1) (after (cleanup live)) in
  started (calls r) = [] /\ outputAudioSources (after r) = [].
Proof.
  apply (no_playback_after_stop (audioMessage [0; 0]%Z) (Double.of_Z 1) live). discriminate.
Defined.

(** X16. After a stop a late capture callback sends nothing; in any
    state the callback leaves the component as it is and sends at most
    the one chunk made from its window. *)
Theorem capture_callback_after_stop (inputData : list Codec.number) (c : Component) :
  onaudioprocess inputData (after (cleanup c)) = (Normal tt, after (cleanup c), [])
  /\ after (onaudioprocess inputData c) = c
  /\ (calls (onaudioprocess inputData c) = []
      \/ calls (onaudioprocess inputData c)
         = [sessionPromise_then_send (Codec.createBlob inputData)]).
Proof.
  split; [| split].
  - rewrite after_cleanup. reflexivity.
  - apply after_onaudioprocess.
  - unfold onaudioprocess, bind, get. cbn.
    destruct (sessionPromiseRef c); cbn; auto.
Qed.

Lemma onMessage_partial (who : Speaker) (t : string) (now : Double.double) (c : Component) :
  onMessage (partialMessage who t) now c
  = (Normal tt,
     match who with
     | user => set_currentUserTranscription (userTranscriptRef c ++ t)
                 (set_userTranscriptRef (userTranscriptRef c ++ t) c)
     | model => set_currentModelTranscription (modelTranscriptRef c ++ t)
                  (set_modelTranscriptRef (modelTranscriptRef c ++ t) c)
     end, []).
Proof. destruct who, c; reflexivity. Qed.

(** X17. Partial transcriptions accumulate per speaker, in arrival
    order: after a stream of partial-text messages each buffer is what it
    was followed by that speaker's texts, the other speaker's texts never
    enter it, the history is untouched and no call is made. *)
Theorem partials_accumulate_per_speaker
        (partials : list (Speaker * string * Double.double)) (c : Component) :
  let r := deliver (partialStream partials) c in
  userTranscriptRef (fst r) = userTranscriptRef c ++ said user (map fst partials)
  /\ modelTranscriptRef (fst r) = modelTranscriptRef c ++ said model (map fst partials)
  /\ transcriptionHistory (fst r) = transcriptionHistory c
  /\ snd r = [].
Proof.
  revert c. induction partials as [| [[who t] now] rest IH]; intros c.
  - cbn. now rewrite !string_append_nil_r.
  - cbn [partialStream map fst snd deliver]. rewrite onMessage_partial.
    fold (partialStream rest).
    specialize (IH (match who with
                    | user => set_currentUserTranscription (userTranscriptRef c ++ t)
                                (set_userTranscriptRef (userTranscriptRef c ++ t) c)
                    | model => set_currentModelTranscription (modelTranscriptRef c ++ t)
                                 (set_modelTranscriptRef (modelTranscriptRef c ++ t) c)
                    end)).
    cbv zeta in IH. destruct (deliver (partialStream rest) _) as [c2 log2].
    cbn [fst snd app] in *. destruct IH as (Hu & Hm & Hh & Hl).
    rewrite Hu, Hm, Hh, Hl.
    destruct who, c; cbn; now rewrite ?string_append_assoc.
Qed.

Lemma turnsCompleted_cons (message : Genai.LiveServerMessage) (now : Double.double)
      (rest : list (Genai.LiveServerMessage * Double.double)) :
  turnsCompleted ((message, now) :: rest)
  = ((if turnCompleted message then 1 else 0) + turnsCompleted rest)%nat.
Proof.
  unfold turnsCompleted. cbn [filter fst].
  now destruct (turnCompleted message).
Qed.

Lemma finalizeTurn_history (message : Genai.LiveServerMessage) (c : Component) :
  transcriptionHistory (after (finalizeTurn message c))
  = (transcriptionHistory c
     ++ if turnCompleted message
        then [ mkEntry user (userTranscriptRef c);
               mkEntry model (modelTranscriptRef c) ]
        else [])%list.
Proof.
  unfold finalizeTurn. destruct (turnCompleted message); destruct c; cbn;
    now rewrite ?app_nil_r.
Qed.

(** X18. The history only grows, by one turn per turn-complete message:
    after any stream of messages it is the history before followed by
    exactly two entries, user then model, for each message that completed
    a turn. *)
Theorem history_append_only
        (messages : list (Genai.LiveServerMessage * Double.double)) (c : Component) :
  exists added,
    transcriptionHistory (fst (deliver messages c))
    = (transcriptionHistory c ++ added)%list
    /\ List.length added = (2 * turnsCompleted messages)%nat
    /\ paired added.
Proof.
  revert c. induction messages as [| [message now] rest IH]; intros c.
  - exists []. cbn. now rewrite app_nil_r.
  - cbn [deliver]. rewrite turnsCompleted_cons, onMessage_eq.
    set (c2 := after (finalizeTurn message (after (accumulate message c)))).
    assert (Hc2 : transcriptionHistory (after (playAudio message now c2))
                  = (transcriptionHistory c
                     ++ if turnCompleted message
                        then [ mkEntry user (userTranscriptRef (after (accumulate message c)));
                               mkEntry model (modelTranscriptRef (after (accumulate message c))) ]
                        else [])%list).
    { destruct (TranscriptClaims.playAudio_keeps_transcripts message now c2)
        as (-> & _).
      subst c2. rewrite finalizeTurn_history.
      now destruct (accumulate_frame message c) as (_ & -> & _). }
    clearbody c2.
    destruct (playAudio message now c2) as [[r c1] log1].
    cbn [after fst snd] in Hc2.
    destruct (IH c1) as (added & Hadd & Hlen & Hpair).
    destruct (deliver rest c1) as [c3 log3]. cbn [fst] in *.
    eexists. split; [rewrite Hadd, Hc2, <- app_assoc; reflexivity |].
    destruct (turnCompleted message); cbn [app List.length]; split;
      try lia; cbn; auto.
Qed.

(** X19. The simulated context is only ever appended: the instruction
    given to [connect] always begins with the persona's own instruction,
    and is exactly that instruction for every persona other than the blog
    writer and the language tutor. *)
Theorem finalSystemInstruction_extends (agent : Agent) :
  prefix (systemInstruction agent) (finalSystemInstruction agent) = true
  /\ (id agent <> "blog_writer" ->
      id agent <> "language_tutor" ->
      finalSystemInstruction agent = systemInstruction agent).
Proof.
  unfold finalSystemInstruction, fetchContextFromR2. split.
  - destruct (String.eqb_spec (id agent) "blog_writer");
      [| destruct (String.eqb_spec (id agent) "language_tutor")];
      cbn [JsString.truthy nl dquote append];
      apply prefix_append || apply prefix_refl.
  - intros Hb Ht.
    apply String.eqb_neq in Hb. apply String.eqb_neq in Ht.
    now rewrite Hb, Ht.
Qed.

Lemma finalSystemInstruction_comedian :
  prefix (systemInstruction comedian) (finalSystemInstruction comedian) = true
  /\ finalSystemInstruction comedian = systemInstruction comedian.
Proof.
  destruct (finalSystemInstruction_extends comedian) as (Hp & Heq).
  split; [exact Hp |]. apply Heq; discriminate.
Defined.

End MessageExtras.

Module TextChatExtras.
Import Constants.
Local Open Scope string_scope.

Lemma replace_from_absent (pat : string) (ins : string -> string -> string)
      (s : string) :
  forall before,
    JsString.includes pat s = false -> JsString.replace_from pat ins 0 before s = s.
Proof.
  induction s as [| ch s IH]; intros before Habs; [reflexivity |].
  cbn [JsString.includes] in Habs. apply orb_false_iff in Habs as [Hp Hrest].
  cbn [JsString.replace_from]. rewrite Hp. now rewrite IH.
Qed.

Lemma replace_from_ext (pat : string) (ins ins' : string -> string -> string)
      (s : string) :
  (forall before after, ins before after = ins' before after) ->
  forall skip before,
    JsString.replace_from pat ins skip before s
    = JsString.replace_from pat ins' skip before s.
Proof.
  intros Hext. induction s as [| ch s IH]; intros skip before; [reflexivity |].
  cbn [JsString.replace_from]. destruct skip as [| k]; [| apply IH].
  destruct (prefix pat (String ch s)); now rewrite ?Hext, IH.
Qed.

(** A replacement text without a dollar sign is inserted as it is. *)
Lemma getSubstitution_plain (matched before after rep : string) :
  JsString.includes "$" rep = false ->
  JsString.getSubstitution matched before after rep = rep.
Proof.
  induction rep as [| ch rep IH]; intros Hp; [reflexivity |].
  cbn [JsString.includes] in Hp. apply orb_false_iff in Hp as [Hch Hrest].
  cbn [JsString.getSubstitution].
  destruct (Ascii.eqb_spec ch "$") as [-> | _].
  - cbn in Hch. now destruct rep.
  - now rewrite IH.
Qed.

(** X20. A persona without the placeholder is passed through unchanged
    by the text chat's resolver, whatever its id and whatever language is
    selected; so is every persona other than the tutor. *)
Theorem getSystemInstruction_passes_plain_templates
        (agent : Agent) (selectedLanguage : Language) :
  id agent <> "language_tutor"
  \/ JsString.includes "{language}" (systemInstruction agent) = false ->
  TextChat.getSystemInstruction agent selectedLanguage = systemInstruction agent.
Proof.
  intros H. unfold TextChat.getSystemInstruction.
  destruct (String.eqb_spec (id agent) "language_tutor") as [Hid | Hid];
    [| reflexivity].
  destruct H as [H | H]; [contradiction |].
  now apply replace_from_absent.
Qed.

Lemma getSystemInstruction_translator :
  TextChat.getSystemInstruction translator Scenario.French
  = systemInstruction translator.
Proof.
  apply getSystemInstruction_passes_plain_templates. left. discriminate.
Defined.

(** X21. For the tutor, the resolver puts a substitution in place of
    both placeholders and leaves the rest of the template as it is: the
    template is three placeholder-free pieces around two placeholders,
    and the result is the same pieces around what [replace] makes of the
    selected language's name at each placeholder.  For a name without a
    dollar sign, as every name of the language list is, that is the name
    itself; a dollar pattern in the name is expanded instead ([$&] brings
    the placeholder back). *)
Theorem getSystemInstruction_tutor_substitutes :
  exists p1 p2 p3,
    systemInstruction language_tutor
    = p1 ++ "{language}" ++ p2 ++ "{language}" ++ p3
    /\ JsString.includes "{language}" p1 = false
    /\ JsString.includes "{language}" p2 = false
    /\ JsString.includes "{language}" p3 = false
    /\ (forall selectedLanguage,
          TextChat.getSystemInstruction language_tutor selectedLanguage
          = p1 ++ JsString.getSubstitution "{language}"
                    p1 (p2 ++ "{language}" ++ p3)
                    (language_name selectedLanguage)
               ++ p2
               ++ JsString.getSubstitution "{language}"
                    (p1 ++ "{language}" ++ p2) p3
                    (language_name selectedLanguage)
               ++ p3)
    /\ (forall selectedLanguage,
          JsString.includes "$" (language_name selectedLanguage) = false ->
          TextChat.getSystemInstruction language_tutor selectedLanguage
          = p1 ++ language_name selectedLanguage ++ p2
               ++ language_name selectedLanguage ++ p3)
    /\ Forall (fun l => JsString.includes "$" (language_name l) = false) LANGUAGES
    /\ TextChat.getSystemInstruction language_tutor (mkLanguage "x" "$&")
       = systemInstruction language_tutor.
Proof.
  exists (substring 0 83 (systemInstruction language_tutor)),
         (substring 93 165 (systemInstruction language_tutor)),
         (substring 268 357 (systemInstruction language_tutor)).
  split; [vm_compute; reflexivity |].
  split; [vm_compute; reflexivity |].
  split; [vm_compute; reflexivity |].
  split; [vm_compute; reflexivity |].
  split; [intros l; vm_compute; reflexivity |].
  split; [| split; [repeat constructor | vm_compute; reflexivity]].
  intros l Hl. unfold TextChat.getSystemInstruction, JsString.replaceAll.
  cbn [id language_tutor String.eqb Ascii.eqb Bool.eqb].
  rewrite (replace_from_ext _ _ (fun _ _ => language_name l));
    [| intros; now apply getSubstitution_plain].
  generalize (language_name l). intros name. vm_compute. reflexivity.
Qed.

(** French is put in place of both placeholders. *)
Lemma getSystemInstruction_tutor_French :
  JsString.includes "$" (language_name Scenario.French) = false
  /\ exists p1 p2 p3,
       systemInstruction language_tutor
       = p1 ++ "{language}" ++ p2 ++ "{language}" ++ p3
       /\ TextChat.getSystemInstruction language_tutor Scenario.French
          = p1 ++ "French" ++ p2 ++ "French" ++ p3.
Proof.
  split; [reflexivity |].
  destruct getSystemInstruction_tutor_substitutes
    as (p1 & p2 & p3 & Ht & _ & _ & _ & _ & Hplain & _).
  exists p1, p2, p3. split; [exact Ht |].
  exact (Hplain Scenario.French eq_refl).
Defined.

End TextChatExtras.

Module SendExtras.
Import TextChatComponent.
Local Open Scope string_scope.

Lemma replaceLast_snoc (l : list ChatMessage) (x y : ChatMessage) :
  replaceLast (l ++ [x]) y = (l ++ [y])%list.
Proof.
  unfold replaceLast. destruct (l ++ [x])%list eqn:E.
  - now destruct l.
  - rewrite <- E. now rewrite removelast_last.
Qed.

Lemma receive_snoc (cs : list (option string)) :
  forall (acc : string) (l : list ChatMessage),
    receive cs acc (l ++ [ {| role := model; content := acc |} ])
    = (l ++ [ {| role := model;
                 content := fold_left LiveChat.appendText cs acc |} ])%list.
Proof.
  induction cs as [| chunk rest IH]; intros acc l; [reflexivity |].
  cbn [receive fold_left]. rewrite replaceLast_snoc. apply IH.
Qed.

(** X22. A message that is sent (input not blank, a chat present, no
    request in flight) adds exactly two messages to the conversation and
    changes none before them: the user's input, then one model message
    that is the whole streamed text if the stream ended well, and the
    apology text if the request or the stream failed, however many chunks
    had arrived.  The input is cleared, loading is over, and the input is
    sent once.  A blank input, a missing chat or a request in flight
    makes the call do nothing. *)
Theorem handleSendMessage_appends_one_exchange
        (isBlank : string -> bool) (response : ResponseStream) (c : Component) :
  let r := handleSendMessage isBlank response c in
  (isBlank (input c) = false -> chat c <> None -> isLoading c = false ->
     messages (fst r)
     = (messages c
        ++ [ {| role := user; content := input c |};
             {| role := model;
                content := if failed response
                           then content errorMessage
                           else replyText (chunks response) |} ])%list
     /\ input (fst r) = ""
     /\ isLoading (fst r) = false
     /\ chat (fst r) = chat c
     /\ hd_error (snd r) = Some (sendMessageStream (input c))
     /\ List.length (filter (fun e => match e with
                                      | sendMessageStream _ => true
                                      | console_error => false
                                      end) (snd r)) = 1%nat)
  /\ (isBlank (input c) = true \/ chat c = None \/ isLoading c = true ->
        r = (c, [])).
Proof.
  cbv zeta. unfold handleSendMessage. split.
  - intros Hb Hc Hl. rewrite Hb, Hl.
    destruct (chat c) as [ch |] eqn:Hchat; [| contradiction].
    cbn [orb fst snd messages input isLoading chat hd_error].
    rewrite (receive_snoc (chunks response) ""). fold (replyText (chunks response)).
    destruct (failed response); cbn [filter List.length].
    + rewrite replaceLast_snoc, <- app_assoc. repeat split.
    + rewrite <- app_assoc. repeat split.
  - intros [H | [H | H]]; rewrite H; rewrite ?orb_true_r; reflexivity.
Qed.

Lemma handleSendMessage_hello :
  let c := {| chat := Some (chatWith "be brief"); messages := [];
              input := "hello"; isLoading := false |} in
  messages (fst (handleSendMessage asciiBlank
                   {| chunks := [Some "Hi"; Some " there"]; failed := false |} c))
  = [ {| role := user; content := "hello" |};
      {| role := model; content := "Hi there" |} ]
  /\ messages (fst (handleSendMessage asciiBlank
                      {| chunks := [Some "Hi"]; failed := true |} c))
     = [ {| role := user; content := "hello" |};
         {| role := model;
            content := "Sorry, something went wrong. Please try again." |} ]
  /\ handleSendMessage asciiBlank {| chunks := [Some "Hi"]; failed := false |}
       {| chat := Some (chatWith "be brief"); messages := [];
          input := "   "; isLoading := false |}
     = ({| chat := Some (chatWith "be brief"); messages := [];
           input := "   "; isLoading := false |}, []).
Proof.
  cbv zeta. split; [| split].
  - apply (handleSendMessage_appends_one_exchange asciiBlank
             {| chunks := [Some "Hi"; Some " there"]; failed := false |}
             {| chat := Some (chatWith "be brief"); messages := [];
                input := "hello"; isLoading := false |});
      [reflexivity | discriminate | reflexivity].
  - apply (handleSendMessage_appends_one_exchange asciiBlank
             {| chunks := [Some "Hi"]; failed := true |}
             {| chat := Some (chatWith "be brief"); messages := [];
                input := "hello"; isLoading := false |});
      [reflexivity | discriminate | reflexivity].
  - apply (handleSendMessage_appends_one_exchange asciiBlank
             {| chunks := [Some "Hi"]; failed := false |}
             {| chat := Some (chatWith "be brief"); messages := [];
                input := "   "; isLoading := false |}).
    left. reflexivity.
Defined.

End SendExtras.
